(** * The oidc-provider storage adapter over Bookshelf and PostgreSQL

    A shallow embedding of [src/storage_adapter.js]: the [StorageAdapter]
    class, its module-level purge counter, and the part of the database engine
    its statements rely on (one table of records, jsonb containment, statement
    failure). *)

From Stdlib Require Import ZArith Ascii String List Bool Lia.
From stdpp Require Import base option list strings gmap fin_maps sorting.

#[local] Set Warnings "-register-all".
#[local] Open Scope Z_scope.

(** ** JSON values

    The [data] column has type jsonb.  An object is a finite map from member
    names to values: neither a JS object nor jsonb keeps duplicate keys, and
    jsonb does not keep member order. *)

Inductive json :=
| JNull
| JBool (b : bool)
| JNum (lit : string)
| JStr (s : string)
| JArr (items : list json)
| JObj (members : gmap string json).

Module Jsonb.

(** The double quote, code 34. *)
Definition dquote : ascii := Ascii false true false false false true false false.
Definition backslash : ascii := Ascii false false true true true false true false.

Definition code (c : ascii) : N := N_of_ascii c.

Definition is_ws (c : ascii) : bool :=
  let n := code c in
  (n =? 32)%N || (n =? 9)%N || (n =? 10)%N || (n =? 13)%N.

Fixpoint skip_ws (s : string) : string :=
  match s with
  | String c rest => if is_ws c then skip_ws rest else s
  | EmptyString => s
  end.

(** *** String literals *)

(** A lexed piece of a string literal: a byte copied from the input, or the
    code unit of a [\uXXXX] escape. *)
Inductive piece :=
| Byte (c : ascii)
| Unit16 (n : N).

Definition hex_val (c : ascii) : option N :=
  let n := code c in
  if (48 <=? n)%N && (n <=? 57)%N then Some (n - 48)%N
  else if (65 <=? n)%N && (n <=? 70)%N then Some (n - 55)%N
  else if (97 <=? n)%N && (n <=? 102)%N then Some (n - 87)%N
  else None.

Definition hex4 (a b c d : ascii) : option N :=
  x ← hex_val a; y ← hex_val b; z ← hex_val c; w ← hex_val d;
  Some (((x * 16 + y) * 16 + z) * 16 + w)%N.

Definition simple_escape (c : ascii) : option ascii :=
  if Ascii.eqb c dquote then Some dquote
  else if Ascii.eqb c backslash then Some backslash
  else if Ascii.eqb c "/" then Some "/"%char
  else if Ascii.eqb c "b" then Some (ascii_of_N 8)
  else if Ascii.eqb c "f" then Some (ascii_of_N 12)
  else if Ascii.eqb c "n" then Some (ascii_of_N 10)
  else if Ascii.eqb c "r" then Some (ascii_of_N 13)
  else if Ascii.eqb c "t" then Some (ascii_of_N 9)
  else None.

(** [lex_string s] reads the body of a string literal whose opening quote
    has been consumed, up to and including the closing quote. *)
Fixpoint lex_string (s : string) : option (list piece * string) :=
  match s with
  | EmptyString => None
  | String c rest =>
    if Ascii.eqb c dquote then Some ([], rest)
    else if Ascii.eqb c backslash then
      match rest with
      | String e rest1 =>
        if Ascii.eqb e "u" then
          match rest1 with
          | String h1 (String h2 (String h3 (String h4 rest2))) =>
            n ← hex4 h1 h2 h3 h4;
            '(ps, out) ← lex_string rest2;
            Some (Unit16 n :: ps, out)
          | _ => None
          end
        else
          x ← simple_escape e;
          '(ps, out) ← lex_string rest1;
          Some (Byte x :: ps, out)
      | EmptyString => None
      end
    else if (code c <? 32)%N then None
    else
      '(ps, out) ← lex_string rest;
      Some (Byte c :: ps, out)
  end.

Definition byte_of (n : N) : ascii := ascii_of_N n.

(** UTF-8 encoding of a code point. *)
Definition utf8 (n : N) : string :=
  if (n <? 128)%N then String (byte_of n) EmptyString
  else if (n <? 2048)%N then
    String (byte_of (192 + n / 64))
      (String (byte_of (128 + n mod 64)) EmptyString)
  else if (n <? 65536)%N then
    String (byte_of (224 + n / 4096))
      (String (byte_of (128 + (n / 64) mod 64))
        (String (byte_of (128 + n mod 64)) EmptyString))
  else
    String (byte_of (240 + n / 262144))
      (String (byte_of (128 + (n / 4096) mod 64))
        (String (byte_of (128 + (n / 64) mod 64))
          (String (byte_of (128 + n mod 64)) EmptyString))).

Definition is_high (n : N) : bool := (55296 <=? n)%N && (n <=? 56319)%N.
Definition is_low (n : N) : bool := (56320 <=? n)%N && (n <=? 57343)%N.

(** The text of a lexed literal.  [\u0000] is refused by jsonb, a high
    surrogate must be followed by a low one, and a low one cannot stand
    alone. *)
Fixpoint decode (ps : list piece) : option string :=
  match ps with
  | [] => Some EmptyString
  | Byte c :: ps' => s ← decode ps'; Some (String c s)
  | Unit16 n :: ps' =>
    if (n =? 0)%N then None
    else if is_high n then
      match ps' with
      | Unit16 m :: ps'' =>
        if is_low m then
          s ← decode ps'';
          Some (utf8 (65536 + (n - 55296) * 1024 + (m - 56320)) +:+ s)
        else None
      | _ => None
      end
    else if is_low n then None
    else s ← decode ps'; Some (utf8 n +:+ s)
  end.

Definition parse_string (s : string) : option (string * string) :=
  '(ps, rest) ← lex_string s;
  str ← decode ps;
  Some (str, rest).

(** *** Numbers *)

Definition is_digit (c : ascii) : bool :=
  (48 <=? code c)%N && (code c <=? 57)%N.

Definition is_num_char (c : ascii) : bool :=
  is_digit c || Ascii.eqb c "-" || Ascii.eqb c "+" || Ascii.eqb c "."
  || Ascii.eqb c "e" || Ascii.eqb c "E".

Fixpoint num_span (s : string) : string * string :=
  match s with
  | String c rest =>
    if is_num_char c then
      let '(tok, out) := num_span rest in (String c tok, out)
    else (EmptyString, s)
  | EmptyString => (EmptyString, s)
  end.

Inductive num_state :=
| NStart | NMinus | NZero | NInt | NDot | NFrac | NExp | NExpSign | NExpDigits.

Definition num_step (st : num_state) (c : ascii) : option num_state :=
  let d := is_digit c in
  let z := Ascii.eqb c "0" in
  let e := Ascii.eqb c "e" || Ascii.eqb c "E" in
  match st with
  | NStart =>
    if Ascii.eqb c "-" then Some NMinus
    else if z then Some NZero else if d then Some NInt else None
  | NMinus => if z then Some NZero else if d then Some NInt else None
  | NZero =>
    if Ascii.eqb c "." then Some NDot else if e then Some NExp else None
  | NInt =>
    if d then Some NInt
    else if Ascii.eqb c "." then Some NDot else if e then Some NExp else None
  | NDot => if d then Some NFrac else None
  | NFrac => if d then Some NFrac else if e then Some NExp else None
  | NExp =>
    if Ascii.eqb c "-" || Ascii.eqb c "+" then Some NExpSign
    else if d then Some NExpDigits else None
  | NExpSign => if d then Some NExpDigits else None
  | NExpDigits => if d then Some NExpDigits else None
  end.

Definition num_final (st : num_state) : bool :=
  match st with
  | NZero | NInt | NFrac | NExpDigits => true
  | _ => false
  end.

Fixpoint num_run (st : num_state) (tok : string) : bool :=
  match tok with
  | EmptyString => num_final st
  | String c rest =>
    match num_step st c with
    | Some st' => num_run st' rest
    | None => false
    end
  end.

(** *** Values *)

Fixpoint strip_prefix (p s : string) : option string :=
  match p, s with
  | EmptyString, _ => Some s
  | String a p', String b s' =>
    if Ascii.eqb a b then strip_prefix p' s' else None
  | String _ _, EmptyString => None
  end.

Definition parse_scalar (s : string) : option (json * string) :=
  match strip_prefix "true" s with
  | Some rest => Some (JBool true, rest)
  | None =>
    match strip_prefix "false" s with
    | Some rest => Some (JBool false, rest)
    | None =>
      match strip_prefix "null" s with
      | Some rest => Some (JNull, rest)
      | None =>
        let '(tok, rest) := num_span s in
        if num_run NStart tok then Some (JNum tok, rest) else None
      end
    end
  end.

(** [fuel] bounds the chain of calls.  A level of nesting takes two calls
    and at least two characters, a further member or element takes one call
    and at least two characters, so the length of the text plus one is
    always enough. *)
Fixpoint parse_value (fuel : nat) (s : string) : option (json * string) :=
  match fuel with
  | O => None
  | S fuel' =>
    match skip_ws s with
    | EmptyString => None
    | String c rest =>
      if Ascii.eqb c "{" then
        match skip_ws rest with
        | EmptyString => None
        | String c' rest' =>
          if Ascii.eqb c' "}" then Some (JObj ∅, rest')
          else parse_members fuel' ∅ rest
        end
      else if Ascii.eqb c "[" then
        match skip_ws rest with
        | EmptyString => None
        | String c' rest' =>
          if Ascii.eqb c' "]" then Some (JArr [], rest')
          else parse_elements fuel' [] rest
        end
      else if Ascii.eqb c dquote then
        '(str, rest') ← parse_string rest;
        Some (JStr str, rest')
      else parse_scalar (String c rest)
    end
  end
with parse_members (fuel : nat) (acc : gmap string json) (s : string)
    : option (json * string) :=
  match fuel with
  | O => None
  | S fuel' =>
    match skip_ws s with
    | EmptyString => None
    | String c rest =>
      if Ascii.eqb c dquote then
        '(key, rest1) ← parse_string rest;
        match skip_ws rest1 with
        | EmptyString => None
        | String c1 rest2 =>
          if Ascii.eqb c1 ":" then
            '(v, rest3) ← parse_value fuel' rest2;
            match skip_ws rest3 with
            | EmptyString => None
            | String c3 rest4 =>
              if Ascii.eqb c3 "," then
                parse_members fuel' (<[key:=v]> acc) rest4
              else if Ascii.eqb c3 "}" then
                Some (JObj (<[key:=v]> acc), rest4)
              else None
            end
          else None
        end
      else None
    end
  end
with parse_elements (fuel : nat) (acc : list json) (s : string)
    : option (json * string) :=
  match fuel with
  | O => None
  | S fuel' =>
    '(v, rest1) ← parse_value fuel' s;
    match skip_ws rest1 with
    | EmptyString => None
    | String c rest2 =>
      if Ascii.eqb c "," then parse_elements fuel' (acc ++ [v]) rest2
      else if Ascii.eqb c "]" then Some (JArr (acc ++ [v]), rest2)
      else None
    end
  end.

(** The jsonb input function: the whole text must be one JSON value.
    [None] is the engine's "invalid input syntax for type json". *)
Definition jsonb_in (text : string) : option json :=
  '(j, rest) ← parse_value (S (String.length text)) text;
  match skip_ws rest with
  | EmptyString => Some j
  | String _ _ => None
  end.

(** *** Containment, the [@>] operator *)

Definition scalar_eqb (a b : json) : bool :=
  match a, b with
  | JNull, JNull => true
  | JBool x, JBool y => Bool.eqb x y
  | JNum x, JNum y => String.eqb x y
  | JStr x, JStr y => String.eqb x y
  | _, _ => false
  end.

(** [contains p d] is [d @> p] for a container [d]: every member of an
    object [p] is found under the same key in [d] with a value of the same
    kind that contains it; every element of an array [p] is contained in
    some element of [d]; scalars are compared for equality.  Numbers are
    compared by their literal. *)
Fixpoint contains (p d : json) {struct p} : bool :=
  match p, d with
  | JObj pm, JObj dm =>
    map_fold (λ k pv acc,
      acc && match dm !! k with
             | Some dv => contains pv dv
             | None => false
             end) true pm
  | JArr ps, JArr ds =>
    forallb (λ pe, existsb (λ de, contains pe de) ds) ps
  | _, _ => scalar_eqb p d
  end.

End Jsonb.


(** ** The table and the world around the adapter *)

(** Modelled from the spec: [model/record.js], the Bookshelf model [Record]
    that the adapter requires, and the schema of its table are not among the
    sources.  The spec gives one table with the columns name, id (unique),
    payload and a nullable expires_at.  The updated_at column, which only
    [getAll] reads, is left out. *)
Record record := Row {
  name : string;
  id : string;
  data : gmap string json;
  expires_at : option Z;
}.

(** The class holds one field, the name of the oidc-provider model. *)
Record StorageAdapter := Adapter { this_name : string }.

(** What a call can see and change: the rows of the table in the order the
    engine scans them, the module-level [upsert_count] that every instance
    shares, the wall clock in milliseconds since the epoch, and for each
    statement still to be sent whether the engine will fail it. *)
Record world := World {
  table : list record;
  upsert_count : Z;
  clock : Z;
  faults : list bool;
}.

Definition PURGE_AFTER_UPSERT_EVERY : Z := 10.

(** What a call can be rejected with: the TypeError of reading a property
    of null, the engine's refusal of a text that is not JSON, its refusal of
    a second row with the same id, and any other failure of a statement. *)
Inductive error :=
| TypeError
| InvalidJsonText (text : string)
| UniqueViolation (key : string)
| StorageFailure.

(** A settled promise. *)
Inductive settled (A : Type) :=
| Fulfilled (a : A)
| Rejected (e : error).
Arguments Fulfilled {A} a.
Arguments Rejected {A} e.

(** An async function: it runs against the world and settles. *)
Definition Promise (A : Type) : Type := world → settled A * world.

Definition resolve {A} (a : A) : Promise A := λ w, (Fulfilled a, w).
Definition throw {A} (e : error) : Promise A := λ w, (Rejected e, w).

(** [await]: a rejection of the awaited promise rejects the caller at once,
    with the world as the awaited call left it. *)
Definition await {A B} (m : Promise A) (k : A → Promise B) : Promise B :=
  λ w, match m w with
       | (Fulfilled a, w') => k a w'
       | (Rejected e, w') => (Rejected e, w')
       end.

Notation "x <~ m ;; k" := (await m (λ x, k))
  (at level 100, m at next level, right associativity).
Notation "m ;;; k" := (await m (λ _, k))
  (at level 100, right associativity).

(** [Date.now()], and the time value of [new Date()]. *)
Definition Date_now : Promise Z := λ w, (Fulfilled (clock w), w).

(** ** Dates *)

Module JsDate.

(** Year, month and day of a count of days since 1970-01-01, in the
    proleptic Gregorian calendar. *)
Definition civil_from_days (days : Z) : Z * Z * Z :=
  let z := days + 719468 in
  let era := z / 146097 in
  let doe := z - era * 146097 in
  let yoe := (doe - doe / 1460 + doe / 36524 - doe / 146096) / 365 in
  let doy := doe - (365 * yoe + yoe / 4 - yoe / 100) in
  let mp := (5 * doy + 2) / 153 in
  let d := doy - (153 * mp + 2) / 5 + 1 in
  let m := if mp <? 10 then mp + 3 else mp - 9 in
  let y := yoe + era * 400 in
  (if m <=? 2 then y + 1 else y, m, d).

Definition digit (n : Z) : ascii := ascii_of_N (48 + Z.to_N (n mod 10)).

Fixpoint digits (width : nat) (n : Z) (tail : string) : string :=
  match width with
  | O => tail
  | S w => digits w (n / 10) (String (digit n) tail)
  end.

Definition year_digits (y : Z) (tail : string) : string :=
  if (0 <=? y) && (y <=? 9999) then digits 4 y tail
  else String (if y <? 0 then "-"%char else "+"%char) (digits 6 (Z.abs y) tail).

(** [Date.prototype.toISOString] of the date whose time value is [t]. *)
Definition toISOString (t : Z) : string :=
  let '(y, m, d) := civil_from_days (t / 86400000) in
  let ms := t mod 86400000 in
  year_digits y (String "-"
    (digits 2 m (String "-"
    (digits 2 d (String "T"
    (digits 2 (ms / 3600000) (String ":"
    (digits 2 (ms / 60000 mod 60) (String ":"
    (digits 2 (ms / 1000 mod 60) (String "."
    (digits 3 (ms mod 1000) "Z")))))))))))).

Definition is_digit (c : ascii) : bool :=
  (48 <=? N_of_ascii c)%N && (N_of_ascii c <=? 57)%N.

(** [field width sep acc s] reads [width] decimal digits and the separator
    [sep]: the number read, after the digits [acc] read before, and the
    rest of [s]. *)
Fixpoint field (width : nat) (sep : ascii) (acc : Z) (s : string)
    : option (Z * string) :=
  match width with
  | S w =>
    match s with
    | String c rest =>
      if is_digit c
      then field w sep (acc * 10 + (Z.of_N (N_of_ascii c) - 48)) rest
      else None
    | EmptyString => None
    end
  | O =>
    match s with
    | String c rest => if Ascii.eqb c sep then Some (acc, rest) else None
    | EmptyString => None
    end
  end.

Definition in_range (lo hi x : Z) : bool := (lo <=? x) && (x <=? hi).

(** The month, day and time of day [MM-DDTHH:mm:ss.sssZ], each within its
    range. *)
Definition is_date_time (s : string) : bool :=
  match
    '(mo, s1) ← field 2 "-" 0 s;
    '(d, s2) ← field 2 "T" 0 s1;
    '(h, s3) ← field 2 ":" 0 s2;
    '(mi, s4) ← field 2 ":" 0 s3;
    '(sec, s5) ← field 2 "." 0 s4;
    '(ms, s6) ← field 3 "Z" 0 s5;
    Some (in_range 1 12 mo && in_range 1 31 d && in_range 0 23 h
          && in_range 0 59 mi && in_range 0 59 sec
          && match s6 with EmptyString => true | String _ _ => false end)
  with
  | Some b => b
  | None => false
  end.

(** The ISO-8601 extended format that ECMAScript writes:
    [YYYY-MM-DDTHH:mm:ss.sssZ], the year with a sign and six digits when
    it does not fit four. *)
Definition is_iso8601 (s : string) : bool :=
  match s with
  | String c rest =>
    if Ascii.eqb c "+" || Ascii.eqb c "-" then
      match field 6 "-" 0 rest with
      | Some (_, s0) => is_date_time s0
      | None => false
      end
    else
      match field 4 "-" 0 s with
      | Some (_, s0) => is_date_time s0
      | None => false
      end
  | EmptyString => false
  end.

End JsDate.

(** ** The engine

    What Bookshelf, knex and PostgreSQL do with the statements of the
    adapter.  A call runs to its end before the next one starts, and the
    clock does not advance within a call. *)

Inductive cmp := Gt | Le.

(** The constraints the adapter puts on a query. *)
Inductive cond :=
| Where_id (v : string)
| Where_data_contains (text : string)
| WhereNull_expires_at
| Where_expires_at (op : cmp) (t : Z)
| AndWhere (a b : cond)
| OrWhere (a b : cond).

(** A comparison with a null [expires_at] is unknown in SQL; no constraint
    of the adapter negates, so unknown filters like false. *)
Definition compare_expires (op : cmp) (t : Z) (r : record) : bool :=
  match expires_at r with
  | None => false
  | Some e => match op with Gt => t <? e | Le => e <=? t end
  end.

(** Binding the parameters of a constraint: the text of a jsonb parameter is
    read by the engine before any row is looked at. *)
Fixpoint bind_cond (c : cond) : error + (record → bool) :=
  match c with
  | Where_id v => inr (λ r, String.eqb (id r) v)
  | Where_data_contains text =>
    match Jsonb.jsonb_in text with
    | Some p => inr (λ r, Jsonb.contains p (JObj (data r)))
    | None => inl (InvalidJsonText text)
    end
  | WhereNull_expires_at =>
    inr (λ r, match expires_at r with None => true | Some _ => false end)
  | Where_expires_at op t => inr (compare_expires op t)
  | AndWhere a b =>
    match bind_cond a, bind_cond b with
    | inr f, inr g => inr (λ r, f r && g r)
    | inl e, _ => inl e
    | _, inl e => inl e
    end
  | OrWhere a b =>
    match bind_cond a, bind_cond b with
    | inr f, inr g => inr (λ r, f r || g r)
    | inl e, _ => inl e
    | _, inl e => inl e
    end
  end.

Definition with_table (t : list record) (w : world) : world :=
  {| table := t; upsert_count := upsert_count w; clock := clock w;
     faults := faults w |}.

Definition with_upsert_count (c : Z) (w : world) : world :=
  {| table := table w; upsert_count := c; clock := clock w;
     faults := faults w |}.

Definition with_faults (fs : list bool) (w : world) : world :=
  {| table := table w; upsert_count := upsert_count w; clock := clock w;
     faults := fs |}.

(** One statement sent to the engine.  It takes the next fault flag; a failed
    statement changes no row. *)
Definition statement {A} (run : list record → error + (A * list record))
    : Promise A :=
  λ w,
    let w' := with_faults (tail (faults w)) w in
    match faults w with
    | true :: _ => (Rejected StorageFailure, w')
    | _ =>
      match run (table w) with
      | inl e => (Rejected e, w')
      | inr (a, t) => (Fulfilled a, with_table t w')
      end
    end.

(** Modelled from the spec: whether [fetch()] rejects or resolves to null
    when no row is found is a setting of the absent [Record] model.  It
    resolves to null, as the spec has it for [find] and as the test of
    [record] after every [fetch()] of the adapter presupposes; otherwise it
    resolves to the first row in scan order that satisfies the constraint. *)
Definition fetch (c : cond) : Promise (option record) :=
  statement (λ t,
    match bind_cond c with
    | inl e => inl e
    | inr f => inr (List.find f t, t)
    end).

(** [destroy({require: false})]: delete the rows that satisfy the constraint;
    deleting none is no error. *)
Definition destroy_where (c : cond) : Promise unit :=
  statement (λ t,
    match bind_cond c with
    | inl e => inl e
    | inr f => inr (tt, List.filter (λ r, negb (f r)) t)
    end).

(** [save] as an update: the row with the model's id takes the columns that
    [set] gives. *)
Definition update_where_id (v : string) (set : record → record) : Promise unit :=
  statement (λ t,
    inr (tt, (λ r, if String.eqb (id r) v then set r else r) <$> t)).

(** [save] as an insert; the id column is unique. *)
Definition insert (r : record) : Promise unit :=
  statement (λ t,
    if List.existsb (λ r', String.eqb (id r') (id r)) t
    then inl (UniqueViolation (id r))
    else inr (tt, t ++ [r])).

(** ** The adapter *)

(** The template literals [`{"uid": "${uid}"}`] and its two siblings. *)
Definition json_template (field value : string) : string :=
  "{" +:+ String Jsonb.dquote field +:+ String Jsonb.dquote ": "
      +:+ String Jsonb.dquote value +:+ String Jsonb.dquote "}".

(** JS truthiness of the [expiresIn] argument: a number of seconds, or
    undefined. *)
Definition truthy (expiresIn : option Z) : bool :=
  match expiresIn with
  | Some n => negb (n =? 0)
  | None => false
  end.

Definition to_number (expiresIn : option Z) : Z := default 0 expiresIn.

(** [update_data]: name and data always, expires_at only when set. *)
Record update_data := UpdateData {
  ud_name : string;
  ud_data : gmap string json;
  ud_expires_at : option Z;
}.

(** [record.set(update_data)]: the attributes present in [update_data]
    replace those of the fetched model, the others stay. *)
Definition set_attributes (u : update_data) (r : record) : record :=
  {| name := ud_name u;
     id := id r;
     data := ud_data u;
     expires_at := match ud_expires_at u with
                   | Some t => Some t
                   | None => expires_at r
                   end |}.

(** [save({data}, {patch: true})] writes the data column alone. *)
Definition set_data (d : gmap string json) (r : record) : record :=
  {| name := name r; id := id r; data := d; expires_at := expires_at r |}.

(** [new Record(update_data)] after [update_data.id = id]. *)
Definition new_record (u : update_data) (v : string) : record :=
  {| name := ud_name u; id := v; data := ud_data u;
     expires_at := ud_expires_at u |}.

(** [++upsert_count]: the counter after the increment. *)
Definition pre_increment_upsert_count : Promise Z :=
  λ w, (Fulfilled (upsert_count w + 1),
        with_upsert_count (upsert_count w + 1) w).

Definition set_upsert_count (c : Z) : Promise unit :=
  λ w, (Fulfilled tt, with_upsert_count c w).

Definition purgeExpired (this : StorageAdapter) : Promise unit :=
  c <~ pre_increment_upsert_count ;;
  if c <? PURGE_AFTER_UPSERT_EVERY then resolve tt
  else
    set_upsert_count 0 ;;;
    now <~ Date_now ;;
    destroy_where (Where_expires_at Le now).

Definition upsert (this : StorageAdapter) (id : string)
    (payload : gmap string json) (expiresIn : option Z) : Promise unit :=
  purgeExpired this ;;;
  now <~ Date_now ;;
  let update_data :=
    {| ud_name := this_name this;
       ud_data := payload;
       ud_expires_at :=
         if truthy expiresIn then Some (now + to_number expiresIn * 1000)
         else None |} in
  record <~ fetch (Where_id id) ;;
  match record with
  | Some r => update_where_id id (λ _, set_attributes update_data r)
  | None => insert (new_record update_data id)
  end.

Definition live_at (now : Z) : cond :=
  OrWhere WhereNull_expires_at (Where_expires_at Gt now).

Definition get_data (record : option record) : option (gmap string json) :=
  match record with
  | None => None
  | Some r => Some (data r)
  end.

Definition find (this : StorageAdapter) (id : string)
    : Promise (option (gmap string json)) :=
  now <~ Date_now ;;
  record <~ fetch (AndWhere (Where_id id) (live_at now)) ;;
  resolve (get_data record).

Definition findByUid (this : StorageAdapter) (uid : string)
    : Promise (option (gmap string json)) :=
  now <~ Date_now ;;
  record <~ fetch (AndWhere (Where_data_contains (json_template "uid" uid))
                            (live_at now)) ;;
  resolve (get_data record).

Definition findByUserCode (this : StorageAdapter) (userCode : string)
    : Promise (option (gmap string json)) :=
  now <~ Date_now ;;
  record <~ fetch (AndWhere
                     (Where_data_contains (json_template "userCode" userCode))
                     (live_at now)) ;;
  resolve (get_data record).

Definition consume (this : StorageAdapter) (id : string) : Promise unit :=
  record <~ fetch (Where_id id) ;;
  match record with
  | None => throw TypeError
  | Some r =>
    now <~ Date_now ;;
    let data' := <["consumed" := JStr (JsDate.toISOString now)]> (data r) in
    update_where_id id (set_data data')
  end.

Definition destroy (this : StorageAdapter) (id : string) : Promise unit :=
  destroy_where (Where_id id).

Definition revokeByGrantId (this : StorageAdapter) (grantId : string)
    : Promise unit :=
  destroy_where (Where_data_contains (json_template "grantId" grantId)).

(** ** Vocabulary of the statements *)

Definition row (n i : string) (d : gmap string json) (e : option Z) : record :=
  {| name := n; id := i; data := d; expires_at := e |}.

(** A record is live when it has no expiry or its expiry is strictly after
    the time of the query. *)
Definition live (now : Z) (r : record) : bool :=
  match expires_at r with
  | None => true
  | Some e => now <? e
  end.

(** What the sweep deletes: the expiry is set and not after [now]. *)
Definition expired (now : Z) (r : record) : bool :=
  match expires_at r with
  | None => false
  | Some e => e <=? now
  end.

(** The id column is unique. *)
Definition unique_ids (t : list record) : Prop := NoDup (id <$> t).

Definition lookup_id (v : string) (t : list record) : option record :=
  List.find (λ r, String.eqb (id r) v) t.

(** The payload has the string [v] under the key [k]. *)
Definition has_field (k v : string) (r : record) : Prop :=
  data r !! k = Some (JStr v).

(** A value that the template literal carries into the JSON text as it is:
    no double quote, no backslash, no control character. *)
Definition plain_char (c : ascii) : bool :=
  negb (Ascii.eqb c Jsonb.dquote) && negb (Ascii.eqb c Jsonb.backslash)
  && negb (Jsonb.code c <? 32)%N.

Fixpoint plain (s : string) : bool :=
  match s with
  | EmptyString => true
  | String c rest => plain_char c && plain rest
  end.

(** The record that [consume] at time [now] leaves for [r]. *)
Definition consumed_at (now : Z) (r : record) : record :=
  set_data (<["consumed" := JStr (JsDate.toISOString now)]> (data r)) r.

(** The call of [purgeExpired] made in world [w] sweeps. *)
Definition sweep_due (w : world) : bool :=
  negb (upsert_count w + 1 <? PURGE_AFTER_UPSERT_EVERY).

(** The call of [purgeExpired] made in world [w] deletes [r]. *)
Definition purged (w : world) (r : record) : bool :=
  sweep_due w && expired (clock w) r.

(** The world that [purgeExpired] leaves when the engine is up. *)
Definition after_purge (w : world) : world :=
  {| table := List.filter (λ r, negb (purged w r)) (table w);
     upsert_count := if sweep_due w then 0 else upsert_count w + 1;
     clock := clock w;
     faults := faults w |}.


(** The [expires_at] that [upsert] writes at time [now] over a previous
    value [old]. *)
Definition written_expiry (now : Z) (expiresIn old : option Z) : option Z :=
  if truthy expiresIn then Some (now + to_number expiresIn * 1000) else old.

(** The table that the fetch and the save of [upsert] leave. *)
Definition written (this : StorageAdapter) (v : string) (p : gmap string json)
    (expiresIn : option Z) (now : Z) (t : list record) : list record :=
  match lookup_id v t with
  | Some r =>
    (λ x, if String.eqb (id x) v
          then row (this_name this) (id r) p
                 (written_expiry now expiresIn (expires_at r))
          else x) <$> t
  | None => t ++ [row (this_name this) v p (written_expiry now expiresIn None)]
  end.



(** The pieces of a literal that has no escape. *)
Fixpoint bytes (s : string) : list Jsonb.piece :=
  match s with
  | EmptyString => []
  | String c rest => Jsonb.Byte c :: bytes rest
  end.

(** Time passing between two calls. *)
Definition tick (d : Z) (w : world) : world :=
  {| table := table w; upsert_count := upsert_count w; clock := clock w + d;
     faults := faults w |}.

(** A call of [upsert] with its arguments, [delay] milliseconds after the
    call before it. *)
Record upsert_call := Call {
  call_delay : Z;
  call_this : StorageAdapter;
  call_id : string;
  call_payload : gmap string json;
  call_expiresIn : option Z;
}.

Definition run_call (c : upsert_call) (w : world) : world :=
  (upsert (call_this c) (call_id c) (call_payload c) (call_expiresIn c)
     (tick (call_delay c) w)).2.

Definition run_calls (cs : list upsert_call) (w : world) : world :=
  List.fold_left (λ w c, run_call c w) cs w.

(** ** Sample data *)

Definition session : StorageAdapter := Adapter "Session".
Definition access_token : StorageAdapter := Adapter "AccessToken".

(** One session that expires at 2000, one that never expires, one access
    token that expired at 500. *)
Definition sample_table : list record :=
  [ row "Session" "a" {[ "uid" := JStr "u1" ]} (Some 2000);
    row "Session" "b" {[ "uid" := JStr "u2"; "grantId" := JStr "g1" ]} None;
    row "AccessToken" "c" {[ "grantId" := JStr "g1" ]} (Some 500) ].

Definition sample_world : world :=
  {| table := sample_table; upsert_count := 0; clock := 1000; faults := [] |}.

(** The world of the sample when nine upserts have been counted. *)
Definition sample_world_9 : world :=
  {| table := sample_table; upsert_count := 9; clock := 1000; faults := [] |}.

(** Nine calls by two instances, ten milliseconds apart, and a tenth. *)
Definition nine_calls : list upsert_call :=
  replicate 5 (Call 10 session "n1" {[ "uid" := JStr "x" ]} (Some 60))
  ++ replicate 4 (Call 10 access_token "n2" ∅ None).

Definition tenth_call : upsert_call :=
  Call 10 access_token "n3" {[ "grantId" := JStr "g2" ]} (Some 3600).



(** The string made of one double quote. *)
Definition lone_quote : string := String Jsonb.dquote EmptyString.

(** A grant id that closes the literal and opens a second member:
    [g1", "kind": "refresh]. *)
Definition two_member_value : string :=
  "g1" +:+ lone_quote +:+ ", " +:+ lone_quote +:+ "kind" +:+ lone_quote
       +:+ ": " +:+ lone_quote +:+ "refresh".

(** Tokens of three grants: the grant whose id is a double quote, and the
    grant "g1" with a refresh token and an access token. *)
Definition grant_table : list record :=
  [ row "AccessToken" "t1" {[ "grantId" := JStr lone_quote ]} None;
    row "RefreshToken" "t2"
      {[ "grantId" := JStr "g1"; "kind" := JStr "refresh" ]} None;
    row "AccessToken" "t3"
      {[ "grantId" := JStr "g1"; "kind" := JStr "access" ]} None ].

Definition grant_world : world :=
  {| table := grant_table; upsert_count := 0; clock := 1000; faults := [] |}.

(** ** getAll *)

Section Listing.

(** Modelled from the spec: the updated_at column, "timestamp of last
    write", is kept by the absent [Record] model; no method of the adapter
    writes it.  It is taken as given, row by row. *)
Variable updated_at : record → Z.

(** [orderBy('updated_at', 'desc')]. *)
Definition newer_first (a b : record) : Prop := updated_at b ≤ updated_at a.

#[global] Instance newer_first_dec a b : Decision (newer_first a b) :=
  Z.le_dec (updated_at b) (updated_at a).

(** [where('name', this.name)], then the order, then [fetchAll()]: one
    statement that changes no row. *)
Definition getAll (this : StorageAdapter) : Promise (list record) :=
  statement (λ t,
    inr (merge_sort newer_first
           (List.filter (λ r, String.eqb (name r) (this_name this)) t), t)).

End Listing.

(** The world once the engine has taken a statement: one fault flag less. *)
Definition sent (w : world) : world := with_faults (tail (faults w)) w.

(** The three reads are one query with a different first constraint. *)
Definition read (c : cond) : Promise (option (gmap string json)) :=
  now <~ Date_now ;;
  record <~ fetch (AndWhere c (live_at now)) ;;
  resolve (get_data record).

(** The sample with the time of the last write of each row. *)
Definition sample_updated_at (r : record) : Z :=
  if String.eqb (id r) "a" then 100
  else if String.eqb (id r) "b" then 300 else 200.

(** * Facts *)

(** The ids of an explicit table are pairwise distinct. *)
Ltac solve_unique_ids :=
  unfold unique_ids; simpl;
  repeat (apply NoDup_cons; split;
          [rewrite ?not_elem_of_cons; repeat split;
           first [discriminate | apply not_elem_of_nil]|]);
  apply NoDup_nil_2.

Section Jsonb_facts.
Import Jsonb.

Lemma lex_string_plain v rest :
  plain v = true →
  lex_string (v +:+ String dquote rest) = Some (bytes v, rest).
Proof.
  induction v as [|c v IH]; simpl; intros H.
  - reflexivity.
  - apply andb_prop in H as [Hc Hv]. unfold plain_char in Hc.
    apply andb_prop in Hc as [Hc H32]. apply andb_prop in Hc as [Hq Hb].
    apply negb_true_iff in Hq, Hb, H32.
    rewrite Hq, Hb, H32, (IH Hv). reflexivity.
Qed.

Lemma decode_bytes v : decode (bytes v) = Some v.
Proof. induction v as [|c v IH]; simpl; [done|]. by rewrite IH. Qed.

Lemma parse_string_plain v rest :
  plain v = true →
  parse_string (v +:+ String dquote rest) = Some (v, rest).
Proof.
  intros H. unfold parse_string. rewrite (lex_string_plain _ _ H). simpl.
  by rewrite decode_bytes.
Qed.

Lemma parse_value_template n k v :
  plain k = true → plain v = true →
  parse_value (S (S (S n))) (json_template k v)
  = Some (JObj {[ k := JStr v ]}, EmptyString).
Proof.
  intros Hk Hv. unfold json_template.
  change (parse_value (S (S (S n)))
    (String "{" (String dquote (k +:+ String dquote (String ":" (String " "
       (String dquote (v +:+ String dquote "}")))))))
    = Some (JObj {[ k := JStr v ]}, EmptyString)).
  simpl. rewrite (parse_string_plain _ _ Hk). simpl.
  rewrite (parse_string_plain _ _ Hv). simpl.
  by rewrite insert_empty.
Qed.

Lemma jsonb_in_template k v :
  plain k = true → plain v = true →
  jsonb_in (json_template k v) = Some (JObj {[ k := JStr v ]}).
Proof.
  intros Hk Hv. unfold jsonb_in.
  assert (∃ n, S (String.length (json_template k v)) = S (S (S n)))
    as [n ->] by (unfold json_template; simpl; eauto).
  by rewrite parse_value_template.
Qed.

Lemma contains_string v d :
  contains (JStr v) d = true ↔ d = JStr v.
Proof.
  destruct d; simpl; try (split; [discriminate | congruence]).
  rewrite String.eqb_eq. split; congruence.
Qed.

(** Containment of a one-member object of a string is the exact presence
    of that member. *)
Lemma contains_singleton k v (d : gmap string json) :
  contains (JObj {[ k := JStr v ]}) (JObj d) = true ↔ d !! k = Some (JStr v).
Proof.
  cbn [contains]. rewrite map_fold_singleton. cbn [andb].
  destruct (d !! k) as [dv|]; [|split; discriminate].
  rewrite contains_string. split; congruence.
Qed.
End Jsonb_facts.

(** ** The model at work on small inputs *)

Example jsonb_in_object :
  Jsonb.jsonb_in (json_template "uid" "abc")
  = Some (JObj {[ "uid" := JStr "abc" ]}).
Proof. vm_compute. reflexivity. Qed.

Example jsonb_in_nested :
  Jsonb.jsonb_in " [1, -2.5e3, true, null, {}, [ ] ] "
  = Some (JArr [JNum "1"; JNum "-2.5e3"; JBool true; JNull; JObj ∅; JArr []]).
Proof. vm_compute. reflexivity. Qed.

Example jsonb_in_escapes :
  Jsonb.jsonb_in (lone_quote +:+ "a\u0062\\c" +:+ lone_quote)
  = Some (JStr "ab\c").
Proof. vm_compute. reflexivity. Qed.

Example jsonb_in_refuses :
  Jsonb.jsonb_in "[01]" = None ∧ Jsonb.jsonb_in "[1,]" = None
  ∧ Jsonb.jsonb_in "{} x" = None
  ∧ Jsonb.jsonb_in (json_template "uid" lone_quote) = None.
Proof. split_and!; vm_compute; reflexivity. Qed.

Example contains_examples :
  let d := JObj {[ "uid" := JStr "u";
                   "scope" := JArr [JStr "openid"; JStr "email"] ]} in
  Jsonb.contains (JObj {[ "uid" := JStr "u" ]}) d = true
  ∧ Jsonb.contains (JObj {[ "uid" := JStr "u1" ]}) d = false
  ∧ Jsonb.contains (JObj {[ "uid" := JStr "" ]}) d = false
  ∧ Jsonb.contains (JObj {[ "scope" := JArr [JStr "email"] ]}) d = true
  ∧ Jsonb.contains (JObj {[ "scope" := JStr "email" ]}) d = false.
Proof. cbv zeta. split_and!; vm_compute; reflexivity. Qed.

Example toISOString_examples :
  JsDate.toISOString 0 = "1970-01-01T00:00:00.000Z"
  ∧ JsDate.toISOString 951868799999 = "2000-02-29T23:59:59.999Z"
  ∧ JsDate.toISOString 1730581200123 = "2024-11-02T21:00:00.123Z"
  ∧ JsDate.toISOString (-1) = "1969-12-31T23:59:59.999Z"
  ∧ JsDate.toISOString 253402300800000 = "+010000-01-01T00:00:00.000Z".
Proof. split_and!; vm_compute; reflexivity. Qed.

Example is_iso8601_examples :
  JsDate.is_iso8601 "2024-11-02T21:00:00.123Z" = true
  ∧ JsDate.is_iso8601 "2024-13-02T21:00:00.123Z" = false
  ∧ JsDate.is_iso8601 "2024-11-02 21:00:00.123Z" = false
  ∧ JsDate.is_iso8601 "2024-11-02T21:00:00Z" = false.
Proof. split_and!; vm_compute; reflexivity. Qed.

(** ** The engine's statements when the engine is up *)

Section Engine_up.

(** A world in which the engine fails no statement. *)
Variable w : world.
Hypothesis Hup : faults w = [].

Lemma with_faults_nil : with_faults (tail (faults w)) w = w.
Proof. destruct w; simpl in *; by rewrite Hup. Qed.

Lemma statement_up {A} (run : list record → error + (A * list record)) :
  statement run w =
    match run (table w) with
    | inl e => (Rejected e, w)
    | inr (a, t) => (Fulfilled a, with_table t w)
    end.
Proof. unfold statement. rewrite with_faults_nil, Hup. reflexivity. Qed.

Lemma fetch_up c f :
  bind_cond c = inr f →
  fetch c w = (Fulfilled (List.find f (table w)), w).
Proof.
  intros Hc. unfold fetch. rewrite statement_up, Hc. by destruct w.
Qed.

Lemma destroy_where_up c f :
  bind_cond c = inr f →
  destroy_where c w
  = (Fulfilled tt, with_table (List.filter (λ r, negb (f r)) (table w)) w).
Proof. intros Hc. unfold destroy_where. by rewrite statement_up, Hc. Qed.

Lemma update_where_id_up v set :
  update_where_id v set w
  = (Fulfilled tt,
     with_table
       ((λ r, if String.eqb (id r) v then set r else r) <$> table w) w).
Proof. unfold update_where_id. by rewrite statement_up. Qed.

End Engine_up.

Section Engine_facts.

Lemma statement_down {A} (run : list record → error + (A * list record)) w fs :
  faults w = true :: fs →
  statement run w = (Rejected StorageFailure, with_faults fs w).
Proof. intros H. unfold statement. by rewrite H. Qed.

Lemma live_filter now r :
  (match expires_at r with None => true | Some _ => false end
   || compare_expires Gt now r) = live now r.
Proof. unfold compare_expires, live. by destruct (expires_at r). Qed.

Lemma expired_filter now r : compare_expires Le now r = expired now r.
Proof. reflexivity. Qed.

Lemma live_not_expired now r : live now r = negb (expired now r).
Proof.
  unfold live, expired. destruct (expires_at r); [|done].
  destruct (Z.ltb_spec now z), (Z.leb_spec z now); simpl; auto; lia.
Qed.

Lemma find_absent t v (g : record → bool) :
  (∀ r, r ∈ t → id r ≠ v) →
  List.find (λ x, String.eqb (id x) v && g x) t = None.
Proof.
  induction t as [|x t IH]; simpl; intros H; [done|].
  destruct (String.eqb_spec (id x) v) as [E|_].
  - exfalso. by apply (H x); [left|].
  - simpl. apply IH. intros r Hr. apply H. by right.
Qed.

(** In a table with unique ids, a fetch by id with a further filter finds
    the record of that id or nothing. *)
Lemma find_by_id t r (g : record → bool) :
  unique_ids t → r ∈ t →
  List.find (λ x, String.eqb (id x) (id r) && g x) t
  = if g r then Some r else None.
Proof.
  unfold unique_ids. induction t as [|x t IH]; intros Hnd Hin.
  - by apply elem_of_nil in Hin.
  - rewrite fmap_cons in Hnd. apply NoDup_cons in Hnd as [Hx Hnd].
    simpl. apply elem_of_cons in Hin as [<-|Hin].
    + rewrite String.eqb_refl. simpl. destruct (g r) eqn:Hg; [done|].
      apply find_absent. intros y Hy E. apply Hx. rewrite <- E.
      by apply list_elem_of_fmap_2.
    + destruct (String.eqb_spec (id x) (id r)) as [E|_].
      * exfalso. apply Hx. rewrite E. by apply list_elem_of_fmap_2.
      * simpl. auto.
Qed.

End Engine_facts.

(** ** The format of [toISOString] *)

Section Date_facts.
Import JsDate.

Lemma is_digit_digit n : is_digit (digit n) = true.
Proof.
  unfold is_digit, digit.
  assert (0 ≤ n mod 10 < 10) as Hb by (apply Z.mod_pos_bound; lia).
  rewrite N_ascii_embedding by lia.
  apply andb_true_intro; split; apply N.leb_le; lia.
Qed.

Lemma is_digit_not_sign c :
  is_digit c = true → (Ascii.eqb c "+" || Ascii.eqb c "-") = false.
Proof.
  intros H. apply orb_false_intro; apply Ascii.eqb_neq; intros ->;
    discriminate H.
Qed.

Lemma digit_value n : Z.of_N (N_of_ascii (digit n)) - 48 = n mod 10.
Proof.
  unfold digit.
  assert (0 ≤ n mod 10 < 10) as Hb by (apply Z.mod_pos_bound; lia).
  rewrite N_ascii_embedding by lia. lia.
Qed.

Lemma field_digits w k n sep acc tail :
  field (w + k) sep acc (digits w n tail)
  = field k sep (acc * 10 ^ Z.of_nat w + n mod 10 ^ Z.of_nat w) tail.
Proof.
  revert k n acc tail. induction w as [|w IH]; intros k n acc tail.
  - simpl. rewrite Z.mod_1_r. f_equal. lia.
  - cbn [digits]. replace (S w + k)%nat with (w + S k)%nat by lia.
    rewrite IH. cbn [field]. rewrite is_digit_digit, digit_value.
    f_equal. rewrite Nat2Z.inj_succ, Z.pow_succ_r by lia.
    rewrite (Z.rem_mul_r n 10 (10 ^ Z.of_nat w)) by lia. lia.
Qed.

Lemma field_digits_sep w n sep rest :
  0 ≤ n < 10 ^ Z.of_nat w →
  field w sep 0 (digits w n (String sep rest)) = Some (n, rest).
Proof.
  intros Hn. rewrite <- (Nat.add_0_r w) at 1. rewrite field_digits.
  cbn [field]. rewrite Ascii.eqb_refl, Z.mod_small by done. done.
Qed.

(** A year of any value is read back as some number. *)
Lemma field_digits_any w n sep rest :
  ∃ x, field w sep 0 (digits w n (String sep rest)) = Some (x, rest).
Proof.
  pose proof (field_digits w 0 n sep 0 (String sep rest)) as H.
  rewrite Nat.add_0_r in H. rewrite H. cbn [field].
  rewrite Ascii.eqb_refl. eauto.
Qed.

Lemma civil_from_days_range days :
  let '(y, m, d) := civil_from_days days in 1 ≤ m ≤ 12 ∧ 1 ≤ d ≤ 31.
Proof.
  unfold civil_from_days.
  set (z := days + 719468). set (era := z / 146097).
  set (doe := z - era * 146097).
  assert (Hdoe : 0 ≤ doe ≤ 146096).
  { subst doe era. pose proof (Z.mod_pos_bound z 146097 ltac:(lia)) as H.
    rewrite Z.mod_eq in H by lia. lia. }
  clearbody doe. clear z era.
  set (yoe := (doe - doe / 1460 + doe / 36524 - doe / 146096) / 365).
  set (doy := doe - (365 * yoe + yoe / 4 - yoe / 100)).
  assert (Hdoy : 0 ≤ doy ≤ 365)
    by (subst doy yoe; Z.div_mod_to_equations; lia).
  clearbody doy. clear yoe.
  set (mp := (5 * doy + 2) / 153).
  assert (Hmp : 0 ≤ mp ≤ 11) by (subst mp; Z.div_mod_to_equations; lia).
  assert (Hd : 1 ≤ doy - (153 * mp + 2) / 5 + 1 ≤ 31)
    by (subst mp; Z.div_mod_to_equations; lia).
  split; [|exact Hd].
  destruct (mp <? 10) eqn:E; [apply Z.ltb_lt in E | apply Z.ltb_ge in E]; lia.
Qed.

Lemma in_range_true lo hi x : lo ≤ x ≤ hi → in_range lo hi x = true.
Proof.
  intros [H1 H2]. unfold in_range.
  apply andb_true_intro. split; by apply Z.leb_le.
Qed.

Lemma date_time_ok m d t :
  1 ≤ m ≤ 12 → 1 ≤ d ≤ 31 →
  let ms := t mod 86400000 in
  is_date_time
    (digits 2 m (String "-"
    (digits 2 d (String "T"
    (digits 2 (ms / 3600000) (String ":"
    (digits 2 (ms / 60000 mod 60) (String ":"
    (digits 2 (ms / 1000 mod 60) (String "."
    (digits 3 (ms mod 1000) "Z"))))))))))) = true.
Proof.
  intros Hm Hd ms.
  assert (Hms : 0 ≤ ms < 86400000) by (apply Z.mod_pos_bound; lia).
  assert (Hh : 0 ≤ ms / 3600000 ≤ 23) by (Z.div_mod_to_equations; lia).
  assert (Hmi : 0 ≤ ms / 60000 mod 60 ≤ 59) by (Z.div_mod_to_equations; lia).
  assert (Hs : 0 ≤ ms / 1000 mod 60 ≤ 59) by (Z.div_mod_to_equations; lia).
  assert (Hmil : 0 ≤ ms mod 1000 ≤ 999) by (Z.div_mod_to_equations; lia).
  unfold is_date_time.
  do 5 (rewrite field_digits_sep by (simpl; lia); cbn [mbind option_bind]).
  rewrite field_digits_sep by (simpl; lia). cbn [mbind option_bind].
  by rewrite !in_range_true.
Qed.

Lemma toISOString_is_iso8601 t : is_iso8601 (toISOString t) = true.
Proof.
  unfold toISOString. pose proof (civil_from_days_range (t / 86400000)) as Hr.
  destruct (civil_from_days _) as [[y m] d]. destruct Hr as [Hm Hd].
  pose proof (date_time_ok m d t Hm Hd) as Hbody. cbv zeta in Hbody.
  remember (digits 2 m _) as body eqn:Hb. clear Hb.
  unfold year_digits, is_iso8601.
  destruct ((0 <=? y) && (y <=? 9999)).
  - destruct (field_digits_any 4 y "-" body) as [x Hx].
    cbn [digits] in *. rewrite (is_digit_not_sign _ (is_digit_digit _)).
    by rewrite Hx.
  - assert (Ascii.eqb (if y <? 0 then "-"%char else "+"%char) "+"
            || Ascii.eqb (if y <? 0 then "-"%char else "+"%char) "-" = true)
      as -> by (destruct (y <? 0); reflexivity).
    destruct (field_digits_any 6 (Z.abs y) "-" body) as [x ->]. done.
Qed.

End Date_facts.

(** ** destroy *)

Lemma filter_filter_same {A} (f : A → bool) (l : list A) :
  List.filter f (List.filter f l) = List.filter f l.
Proof.
  induction l as [|x l IH]; simpl; [done|].
  destruct (f x) eqn:E; simpl; [rewrite E|]; by rewrite ?IH.
Qed.

Lemma find_ext_eq {A} (f g : A → bool) (l : list A) :
  (∀ x, f x = g x) → List.find f l = List.find g l.
Proof.
  intros H. induction l as [|x l IH]; simpl; [done|]. by rewrite H, IH.
Qed.



Lemma find_up this v w :
  faults w = [] →
  find this v w
  = (Fulfilled
       (get_data (List.find (λ r, String.eqb (id r) v && live (clock w) r)
                            (table w))), w).
Proof.
  intros H. unfold find, await, Date_now, resolve.
  erewrite fetch_up; [|done|reflexivity]. do 3 f_equal.
  apply find_ext_eq. intros r. by rewrite live_filter.
Qed.

(** C7. Whatever the table holds, [destroy(id)] is fulfilled when the
    engine is up and leaves no record with that id: the other records stay, a
    table without the id is left as it was, a second [destroy(id)] is
    fulfilled again and changes nothing, and [find(id)] after either call
    resolves to null. *)
Theorem destroy_idempotent this v w :
  faults w = [] →
  let w' := with_table
              (List.filter (λ r, negb (String.eqb (id r) v)) (table w)) w in
  destroy this v w = (Fulfilled tt, w')
  ∧ (∀ r, r ∈ table w' ↔ r ∈ table w ∧ id r ≠ v)
  ∧ ((∀ r, r ∈ table w → id r ≠ v) → w' = w)
  ∧ find this v w' = (Fulfilled None, w')
  ∧ destroy this v w' = (Fulfilled tt, w')
  ∧ find this v (destroy this v w').2 = (Fulfilled None, w').
Proof.
  intros H w'.
  assert (Hmem : ∀ r, r ∈ table w' ↔ r ∈ table w ∧ id r ≠ v).
  { intros r. subst w'. simpl. rewrite !list_elem_of_In, List.filter_In.
    rewrite negb_true_iff, String.eqb_neq. reflexivity. }
  assert (Hfind : find this v w' = (Fulfilled None, w')).
  { rewrite find_up by done. rewrite find_absent; [done|].
    intros r Hr. by apply Hmem in Hr as [_ ?]. }
  assert (Hagain : destroy this v w' = (Fulfilled tt, w')).
  { unfold destroy. erewrite destroy_where_up; [|done|reflexivity].
    subst w'. simpl. rewrite filter_filter_same. by destruct w. }
  split; [|split; [done|split; [|split; [done|split; [done|]]]]].
  - unfold destroy. by erewrite destroy_where_up; [|done|reflexivity].
  - intros Habs. subst w'. destruct w as [t c k fs]. unfold with_table.
    simpl in *. f_equal. clear H Hmem Hfind Hagain.
    induction t as [|x t IH]; simpl; [done|].
    destruct (String.eqb_spec (id x) v) as [E|_].
    + exfalso. by apply (Habs x); [left|].
    + simpl. f_equal. apply IH. intros r Hr. apply Habs. by right.
  - by rewrite Hagain.
Qed.

Lemma destroy_idempotent_witness :
  faults sample_world = []
  ∧ find session "a" (destroy session "a" sample_world).2
    = (Fulfilled None, (destroy session "a" sample_world).2).
Proof.
  split; [reflexivity|].
  pose proof (destroy_idempotent session "a" sample_world eq_refl) as H.
  simpl in H. destruct H as (-> & _ & _ & H & _). exact H.
Defined.

(** ** consume *)

Lemma consume_up this v w :
  faults w = [] →
  consume this v w =
    match lookup_id v (table w) with
    | None => (Rejected TypeError, w)
    | Some r =>
      (Fulfilled tt,
       with_table
         ((λ x, if String.eqb (id x) v
                then set_data (<["consumed" := JStr (JsDate.toISOString (clock w))]>
                                 (data r)) x
                else x) <$> table w) w)
    end.
Proof.
  intros H. unfold consume, await.
  erewrite fetch_up; [|done|reflexivity]. fold (lookup_id v (table w)).
  destruct (lookup_id v (table w)) as [r|]; [|done].
  unfold Date_now. by rewrite update_where_id_up.
Qed.



Lemma unique_lookup t r :
  unique_ids t → r ∈ t → lookup_id (id r) t = Some r.
Proof.
  intros Hu Hin. unfold lookup_id.
  rewrite (find_ext_eq _ (λ x, String.eqb (id x) (id r) && true))
    by (intros x; by rewrite andb_true_r).
  by rewrite find_by_id.
Qed.

Lemma unique_same t x r :
  unique_ids t → x ∈ t → r ∈ t → id x = id r → x = r.
Proof.
  intros Hu Hx Hr E. pose proof (unique_lookup _ _ Hu Hx) as H1.
  pose proof (unique_lookup _ _ Hu Hr) as H2. rewrite E in H1. congruence.
Qed.

Lemma unique_ids_fmap (f : record → record) t :
  (∀ x, id (f x) = id x) → unique_ids t → unique_ids (f <$> t).
Proof.
  unfold unique_ids. intros Hf Hu. rewrite <- list_fmap_compose.
  by rewrite (list_fmap_ext (id ∘ f) id t) by (intros; simpl; auto).
Qed.

(** C5. With the engine up and ids unique, [consume(id)] of a stored
    record is fulfilled and leaves the record in the table under the same id,
    name and [expires_at]; its payload holds under [consumed] the ISO-8601
    string of the time of the call and is unchanged at every other key; the
    other records are untouched; [find(id)] at any later time at which the
    record is live resolves to that payload; and a second [consume(id)]
    leaves what a single one at that later time would have left. *)
Theorem consume_additive this w r :
  unique_ids (table w) → faults w = [] → r ∈ table w →
  let r' := consumed_at (clock w) r in
  let w' := (consume this (id r) w).2 in
  consume this (id r) w = (Fulfilled tt, w')
  ∧ (∀ x, x ∈ table w' ∧ id x = id r ↔ x = r')
  ∧ (∀ x, id x ≠ id r → x ∈ table w' ↔ x ∈ table w)
  ∧ name r' = name r ∧ expires_at r' = expires_at r
  ∧ (∃ stamp, data r' !! "consumed" = Some (JStr stamp)
              ∧ JsDate.is_iso8601 stamp = true)
  ∧ (∀ k, k ≠ "consumed" → data r' !! k = data r !! k)
  ∧ (∀ d, live (clock w + d) r = true →
          find this (id r) (tick d w') = (Fulfilled (Some (data r')), tick d w'))
  ∧ (∀ d, consume this (id r) (tick d w') = consume this (id r) (tick d w)).
Proof.
  intros Hu Hf Hin r' w'.
  set (f := λ x : record,
         if String.eqb (id x) (id r)
         then set_data (<["consumed" := JStr (JsDate.toISOString (clock w))]>
                          (data r)) x
         else x).
  assert (Hc : consume this (id r) w = (Fulfilled tt, with_table (f <$> table w) w)).
  { rewrite consume_up by done. by rewrite (unique_lookup _ _ Hu Hin). }
  assert (Hw' : w' = with_table (f <$> table w) w) by (subst w'; by rewrite Hc).
  assert (Hfid : ∀ x, id (f x) = id x).
  { intros x. unfold f. by destruct (String.eqb _ _). }
  assert (Hfr : f r = r') by (unfold f; by rewrite String.eqb_refl).
  assert (Hu' : unique_ids (table w')).
  { rewrite Hw'. simpl. by apply unique_ids_fmap. }
  assert (Hin' : r' ∈ table w').
  { rewrite Hw'. simpl. rewrite <- Hfr. by apply list_elem_of_fmap_2. }
  split; [by rewrite Hc, Hw'|].
  split; [|split; [|split; [done|split; [done|split; [|split; [|split]]]]]].
  - intros x. split; [|by intros ->].
    intros [Hx E]. by apply (unique_same (table w')).
  - intros x Hne. rewrite Hw'. simpl. rewrite list_elem_of_fmap. split.
    + intros (y & -> & Hy). rewrite Hfid in Hne. unfold f.
      by destruct (String.eqb_spec (id y) (id r)).
    + intros Hx. exists x. split; [|done]. unfold f.
      by destruct (String.eqb_spec (id x) (id r)).
  - eexists. split; [apply lookup_insert_eq|apply toISOString_is_iso8601].
  - intros k Hk. simpl. by rewrite lookup_insert_ne.
  - intros d Hl. rewrite find_up by (rewrite Hw'; done).
    change (id r) with (id r').
    rewrite find_by_id; [|done..]. simpl. rewrite Hw'. simpl.
    change (live (clock w + d) r') with (live (clock w + d) r). by rewrite Hl.
  - intros d. rewrite !consume_up by (rewrite ?Hw'; done).
    change (table (tick d w')) with (table w').
    change (table (tick d w)) with (table w).
    change (id r) with (id r') at 1.
    rewrite (unique_lookup _ _ Hu' Hin'), (unique_lookup _ _ Hu Hin).
    rewrite Hw'. unfold with_table, tick. simpl. do 2 f_equal.
    rewrite <- list_fmap_compose. apply list_fmap_ext. intros i x _. simpl.
    unfold f. destruct (String.eqb_spec (id x) (id r)) as [E|E]; simpl.
    + rewrite E, String.eqb_refl. unfold set_data. simpl.
      by rewrite insert_insert_eq.
    + by destruct (String.eqb_spec (id x) (id r)).
Qed.

Lemma consume_additive_witness :
  unique_ids (table sample_world) ∧ faults sample_world = []
  ∧ consume session "a" sample_world
    = (Fulfilled tt, (consume session "a" sample_world).2).
Proof.
  assert (Hu : unique_ids (table sample_world)).
  { solve_unique_ids. }
  split; [exact Hu|]. split; [reflexivity|].
  refine (proj1 (consume_additive session sample_world
           (row "Session" "a" {[ "uid" := JStr "u1" ]} (Some 2000))
           Hu eq_refl _)).
  apply list_elem_of_here.
Defined.

(** ** upsert *)

Lemma filter_none_purged w :
  sweep_due w = false →
  List.filter (λ r, negb (purged w r)) (table w) = table w.
Proof.
  intros H. unfold purged. rewrite H. simpl.
  induction (table w) as [|x t IH]; simpl; [done|]. by rewrite IH.
Qed.

Lemma purgeExpired_up this w :
  faults w = [] → purgeExpired this w = (Fulfilled tt, after_purge w).
Proof.
  intros H. unfold purgeExpired, await, pre_increment_upsert_count.
  unfold after_purge. destruct (sweep_due w) eqn:Hd; unfold sweep_due in Hd.
  - apply negb_true_iff in Hd. simpl. rewrite Hd.
    unfold set_upsert_count, Date_now.
    erewrite destroy_where_up; [|done|reflexivity]. simpl.
    unfold with_table. simpl. do 2 f_equal.
    unfold purged, sweep_due. rewrite Hd. reflexivity.
  - apply negb_false_iff in Hd. simpl. rewrite Hd. unfold resolve.
    f_equal. unfold with_upsert_count. f_equal.
    symmetry. apply filter_none_purged. unfold sweep_due. by rewrite Hd.
Qed.

Lemma lookup_none_existsb v t :
  lookup_id v t = None → List.existsb (λ r, String.eqb (id r) v) t = false.
Proof.
  unfold lookup_id. induction t as [|x t IH]; simpl; [done|].
  destruct (String.eqb (id x) v); [discriminate|]. auto.
Qed.

Lemma upsert_up this v p e w :
  faults w = [] →
  upsert this v p e w
  = (Fulfilled tt,
     with_table (written this v p e (clock w) (table (after_purge w)))
                (after_purge w)).
Proof.
  intros H. unfold upsert, await at 1. rewrite purgeExpired_up by done.
  set (w1 := after_purge w).
  assert (H1 : faults w1 = []) by done.
  unfold await, Date_now. erewrite fetch_up; [|done|reflexivity].
  fold (lookup_id v (table w1)). unfold written.
  change (clock w1) with (clock w).
  destruct (lookup_id v (table w1)) as [r|] eqn:E.
  - rewrite update_where_id_up by done.
    unfold set_attributes, written_expiry, row. simpl.
    by destruct (truthy e).
  - unfold insert. rewrite statement_up by done. unfold new_record.
    apply lookup_none_existsb in E. simpl in *. rewrite E.
    unfold written_expiry, row. by destruct (truthy e).
Qed.

Lemma lookup_id_some v t r :
  lookup_id v t = Some r → r ∈ t ∧ id r = v.
Proof.
  unfold lookup_id. intros H. apply List.find_some in H as [Hin E].
  split; [by apply list_elem_of_In | by apply String.eqb_eq].
Qed.



Lemma after_purge_table w x :
  x ∈ table (after_purge w) ↔ x ∈ table w ∧ purged w x = false.
Proof.
  simpl. rewrite !list_elem_of_In, List.filter_In.
  by rewrite negb_true_iff.
Qed.













(** ** The cadence of the sweep *)

Lemma written_other this v p e now t x :
  id x ≠ v → x ∈ written this v p e now t ↔ x ∈ t.
Proof.
  intros Hne. unfold written. destruct (lookup_id v t) as [r|] eqn:E.
  - apply lookup_id_some in E as [_ Hid]. rewrite list_elem_of_fmap. split.
    + intros (y & -> & Hy). destruct (String.eqb_spec (id y) v); [|done].
      simpl in Hne. congruence.
    + intros Hx. exists x. split; [|done].
      by destruct (String.eqb_spec (id x) v).
  - rewrite elem_of_app, list_elem_of_singleton. split; [|by left].
    intros [Hx| ->]; [done|]. by destruct Hne.
Qed.

Lemma run_call_up c w :
  faults w = [] →
  run_call c w
  = with_table
      (written (call_this c) (call_id c) (call_payload c) (call_expiresIn c)
         (clock w + call_delay c) (table (after_purge (tick (call_delay c) w))))
      (after_purge (tick (call_delay c) w)).
Proof. intros H. unfold run_call. by rewrite upsert_up. Qed.

Lemma run_call_other c w x :
  faults w = [] → id x ≠ call_id c →
  x ∈ table (run_call c w)
  ↔ x ∈ table w ∧ purged (tick (call_delay c) w) x = false.
Proof.
  intros H Hne. rewrite run_call_up by done. simpl table at 1.
  rewrite written_other by done.
  apply (after_purge_table (tick (call_delay c) w)).
Qed.

(** While the counter stays below the threshold no call sweeps. *)
Lemma run_calls_below cs w :
  faults w = [] →
  upsert_count w + Z.of_nat (length cs) < PURGE_AFTER_UPSERT_EVERY →
  faults (run_calls cs w) = []
  ∧ upsert_count (run_calls cs w) = upsert_count w + Z.of_nat (length cs)
  ∧ (∀ r, r ∈ table w → id r ∉ call_id <$> cs → r ∈ table (run_calls cs w)).
Proof.
  unfold PURGE_AFTER_UPSERT_EVERY.
  revert w. induction cs as [|c cs IH]; intros w Hf Hlt.
  - simpl. split; [done|]. split; [lia|done].
  - simpl length in Hlt. rewrite Nat2Z.inj_succ in Hlt. simpl run_calls.
    assert (Hd : sweep_due (tick (call_delay c) w) = false).
    { unfold sweep_due, PURGE_AFTER_UPSERT_EVERY. simpl.
      apply negb_false_iff, Z.ltb_lt. lia. }
    assert (Hf1 : faults (run_call c w) = []) by (by rewrite run_call_up).
    assert (Hc1 : upsert_count (run_call c w) = upsert_count w + 1).
    { rewrite run_call_up by done. simpl. by rewrite Hd. }
    destruct (IH (run_call c w) Hf1) as (H1 & H2 & H3); [lia|].
    split; [done|]. split; [simpl length; lia|].
    intros r Hr Hnot. rewrite fmap_cons, not_elem_of_cons in Hnot.
    destruct Hnot as [Hne Hnot]. apply H3; [|done].
    apply run_call_other; [done..|]. split; [done|].
    unfold purged. by rewrite Hd.
Qed.

(** What a read resolves to is the payload of a record that is in the table
    and live at the time of the read. *)
Lemma fetch_live c w r :
  (fetch (AndWhere c (live_at (clock w))) w).1 = Fulfilled (Some r) →
  r ∈ table w ∧ live (clock w) r = true
  ∧ ∃ f, bind_cond c = inr f ∧ f r = true.
Proof.
  unfold fetch, statement. destruct (faults w) as [|[] fs]; simpl;
    try discriminate;
    destruct (bind_cond c) as [e|f]; simpl; try discriminate;
    intros [= H]; apply List.find_some in H as [Hin H];
    apply andb_prop in H as [Hc Hl]; rewrite live_filter in Hl;
    (split; [by apply list_elem_of_In|]); (split; [done|]); eauto.
Qed.

Lemma read_live (c : cond) w p :
  ((now <~ Date_now ;;
    record <~ fetch (AndWhere c (live_at now)) ;;
    resolve (get_data record)) w).1 = Fulfilled (Some p) →
  ∃ r f, r ∈ table w ∧ live (clock w) r = true ∧ data r = p
         ∧ bind_cond c = inr f ∧ f r = true.
Proof.
  unfold await, Date_now, resolve.
  destruct (fetch _ w) as [[[r|]|e] w1] eqn:E; simpl; try discriminate.
  intros [= <-].
  destruct (fetch_live c w r) as (H1 & H2 & f & H3 & H4); [by rewrite E|].
  eauto 10.
Qed.

(** C2. Every [upsert] counts on the one counter of the module, whichever
    instance makes it; [purgeExpired] sweeps when the count reaches the
    threshold and only then, deleting in every namespace the records whose
    expiry is set and not after the clock, and resets the counter.  From a
    counter at zero, with the engine up: the first nine calls delete no
    record whose id they do not write, the tenth leaves the counter at zero
    and, apart from the record it writes, exactly the records that are not
    expired at its time.  At any time a read resolves only to the payload of
    a record that is live. *)
Theorem purge_cadence (calls : list upsert_call) (last : upsert_call) (w : world) :
  faults w = [] → upsert_count w = 0 →
  Z.of_nat (length calls) = PURGE_AFTER_UPSERT_EVERY - 1 →
  let w9 := run_calls calls w in
  let now := clock w9 + call_delay last in
  let w10 := run_call last w9 in
  (∀ this v p e w0, faults w0 = [] →
     upsert_count (upsert this v p e w0).2
     = if upsert_count w0 + 1 <? PURGE_AFTER_UPSERT_EVERY
       then upsert_count w0 + 1 else 0)
  ∧ (∀ this w0, faults w0 = [] →
       ∃ w1, purgeExpired this w0 = (Fulfilled tt, w1)
         ∧ table w1
           = if upsert_count w0 + 1 <? PURGE_AFTER_UPSERT_EVERY
             then table w0
             else List.filter (λ r, negb (expired (clock w0) r)) (table w0))
  ∧ upsert_count w9 = PURGE_AFTER_UPSERT_EVERY - 1
  ∧ (∀ r, r ∈ table w → id r ∉ call_id <$> calls → r ∈ table w9)
  ∧ upsert_count w10 = 0
  ∧ (∀ r, id r ≠ call_id last →
       r ∈ table w10 ↔ r ∈ table w9 ∧ expired now r = false)
  ∧ (∀ this v w0 p, (find this v w0).1 = Fulfilled (Some p) →
       ∃ r, r ∈ table w0 ∧ expired (clock w0) r = false ∧ data r = p)
  ∧ (∀ this v w0 p, (findByUid this v w0).1 = Fulfilled (Some p) →
       ∃ r, r ∈ table w0 ∧ expired (clock w0) r = false ∧ data r = p)
  ∧ (∀ this v w0 p, (findByUserCode this v w0).1 = Fulfilled (Some p) →
       ∃ r, r ∈ table w0 ∧ expired (clock w0) r = false ∧ data r = p).
Proof.
  intros Hf H0 Hlen w9 now w10.
  destruct (run_calls_below calls w Hf) as (Hf9 & Hc9 & Hkeep).
  { rewrite H0, Hlen. unfold PURGE_AFTER_UPSERT_EVERY. lia. }
  fold w9 in Hf9, Hc9, Hkeep.
  assert (Hd : sweep_due (tick (call_delay last) w9) = true).
  { unfold sweep_due. simpl. rewrite Hc9, H0, Hlen. reflexivity. }
  assert (Hread : ∀ c w0 p,
    ((now <~ Date_now ;;
      record <~ fetch (AndWhere c (live_at now)) ;;
      resolve (get_data record)) w0).1 = Fulfilled (Some p) →
    ∃ r, r ∈ table w0 ∧ expired (clock w0) r = false ∧ data r = p).
  { intros c w0 p H. apply read_live in H as (r & f & H1 & H2 & H3 & _).
    exists r. rewrite live_not_expired in H2.
    apply negb_true_iff in H2. done. }
  split_and!.
  - intros this v p e w0 Hf0. rewrite upsert_up by done. simpl.
    unfold sweep_due. by destruct (_ <? _).
  - intros this w0 Hf0. exists (after_purge w0).
    split; [by apply purgeExpired_up|]. simpl.
    destruct (upsert_count w0 + 1 <? PURGE_AFTER_UPSERT_EVERY) eqn:E.
    + apply filter_none_purged. unfold sweep_due. by rewrite E.
    + unfold purged, sweep_due. rewrite E. reflexivity.
  - rewrite Hc9, H0, Hlen. lia.
  - exact Hkeep.
  - subst w10. rewrite run_call_up by done. simpl. by rewrite Hd.
  - intros r Hne. subst w10. rewrite run_call_other by done.
    unfold purged. rewrite Hd. reflexivity.
  - intros this v. apply Hread.
  - intros this v. apply Hread.
  - intros this v. apply Hread.
Qed.

Lemma purge_cadence_witness :
  faults sample_world = [] ∧ upsert_count sample_world = 0
  ∧ Z.of_nat (length nine_calls) = PURGE_AFTER_UPSERT_EVERY - 1
  ∧ upsert_count (run_calls nine_calls sample_world) = 9
  ∧ upsert_count (run_call tenth_call (run_calls nine_calls sample_world)) = 0.
Proof.
  split; [reflexivity|]. split; [reflexivity|]. split; [reflexivity|].
  destruct (purge_cadence nine_calls tenth_call sample_world
              eq_refl eq_refl eq_refl) as (_ & _ & H9 & _ & H10 & _).
  split; [exact H9 | exact H10].
Defined.

(** The sample at work: after nine calls the access token "c", expired since
    500, is still in the table and [find] does not return it; the tenth call
    removes it. *)
Example nine_calls_keep_then_tenth_sweeps :
  let w9 := run_calls nine_calls sample_world in
  let w10 := run_call tenth_call w9 in
  id <$> table w9 = ["a"; "b"; "c"; "n1"; "n2"]
  ∧ (find access_token "c" w9).1 = Fulfilled None
  ∧ upsert_count w9 = 9 ∧ clock w9 = 1090
  ∧ id <$> table w10 = ["a"; "b"; "n1"; "n2"; "n3"]
  ∧ upsert_count w10 = 0.
Proof. cbv zeta. split_and!; vm_compute; reflexivity. Qed.

(** The scenario of the spec: a session stored for one second is found at
    once and not after two seconds; a token stored without expiry is not
    found once its grant is revoked. *)
Example scenario :
  let w0 := {| table := []; upsert_count := 0; clock := 0; faults := [] |} in
  let w1 := (upsert session "a" {[ "uid" := JStr "u1" ]} (Some 1) w0).2 in
  let w2 := (upsert access_token "b" {[ "grantId" := JStr "g1" ]} (Some 0)
               w1).2 in
  let w3 := (revokeByGrantId access_token "g1" w2).2 in
  (find session "a" w1).1 = Fulfilled (Some {[ "uid" := JStr "u1" ]})
  ∧ (find session "a" (tick 2000 w1)).1 = Fulfilled None
  ∧ (findByUid session "u1" w1).1 = Fulfilled (Some {[ "uid" := JStr "u1" ]})
  ∧ (find access_token "b" w2).1
    = Fulfilled (Some {[ "grantId" := JStr "g1" ]})
  ∧ (find access_token "b" w3).1 = Fulfilled None
  ∧ id <$> table w3 = ["a"].
Proof. cbv zeta. split_and!; vm_compute; reflexivity. Qed.

(** ** Lookups by a member of the payload *)

Lemma bind_template k v :
  plain k = true → plain v = true →
  bind_cond (Where_data_contains (json_template k v))
  = inr (λ r, Jsonb.contains (JObj {[ k := JStr v ]}) (JObj (data r))).
Proof. intros Hk Hv. simpl. by rewrite jsonb_in_template. Qed.






(** ** Expiry at the reads *)




(** ** revokeByGrantId *)

(** The text that the template makes of a lone double quote is not JSON,
    whatever the fuel. *)
Lemma lone_quote_is_not_json fuel k :
  plain k = true →
  Jsonb.parse_value fuel (json_template k lone_quote) = None.
Proof.
  intros Hk. unfold json_template, lone_quote.
  change (Jsonb.parse_value fuel
    (String "{" (String Jsonb.dquote (k +:+ String Jsonb.dquote
       (String ":" (String " " (String Jsonb.dquote (String Jsonb.dquote
          (String Jsonb.dquote "}")))))))) = None).
  destruct fuel as [|[|[|n]]]; simpl; try done;
    rewrite (parse_string_plain _ _ Hk); reflexivity.
Qed.

(** With the engine up and a grant id without double quote, backslash or
    control character, [revokeByGrantId] deletes the records whose payload
    has exactly that string under [grantId], live or not, and no other. *)
Lemma revokeByGrantId_plain this g w :
  plain g = true → faults w = [] →
  let w' := (revokeByGrantId this g w).2 in
  revokeByGrantId this g w = (Fulfilled tt, w')
  ∧ (∀ r, r ∈ table w' ↔ r ∈ table w ∧ ¬ has_field "grantId" g r)
  ∧ upsert_count w' = upsert_count w ∧ clock w' = clock w.
Proof.
  intros Hg Hf w'. subst w'. unfold revokeByGrantId.
  erewrite destroy_where_up; [|done|by apply bind_template].
  split; [done|]. split; [|done]. intros r. cbn [snd with_table table].
  rewrite !list_elem_of_In, List.filter_In, negb_true_iff.
  rewrite <- not_true_iff_false, contains_singleton. reflexivity.
Qed.

(** C8 at the failing inputs.  The grant id made of one double quote gives a
    text that is not JSON: the call is rejected, also on an empty table, and
    the token "t1" of that grant stays and is found.  The grant id
    [g1", "kind": "refresh] gives the text of an object of two members: the
    call deletes "t2", whose grant id is "g1" and not that string. *)
Theorem revokeByGrantId_unescaped :
  revokeByGrantId access_token lone_quote grant_world
  = (Rejected (InvalidJsonText (json_template "grantId" lone_quote)),
     grant_world)
  ∧ (revokeByGrantId access_token lone_quote
       {| table := []; upsert_count := 0; clock := 0; faults := [] |}).1
    = Rejected (InvalidJsonText (json_template "grantId" lone_quote))
  ∧ find access_token "t1" grant_world
    = (Fulfilled (Some {[ "grantId" := JStr lone_quote ]}), grant_world)
  ∧ id <$> table (revokeByGrantId access_token two_member_value grant_world).2
    = ["t1"; "t3"].
Proof. split_and!; vm_compute; reflexivity. Qed.

(** ** The id column stays unique *)

Section Invariant.













End Invariant.

(** ** A sweep that fails *)

(** C9. When the counter makes the sweep due and the engine fails the
    sweep's delete, [upsert] is rejected with that failure: the delete is the
    only statement sent (one fault flag is taken, so neither the fetch nor
    the write is attempted), the table is as before, and the counter has
    been reset. *)
Theorem upsert_rejected_by_failed_sweep this v p e w fs :
  PURGE_AFTER_UPSERT_EVERY ≤ upsert_count w + 1 →
  faults w = true :: fs →
  upsert this v p e w
  = (Rejected StorageFailure,
     {| table := table w; upsert_count := 0; clock := clock w; faults := fs |}).
Proof.
  intros Hdue Hf. unfold upsert, purgeExpired, await at 1 2.
  unfold pre_increment_upsert_count.
  destruct (Z.ltb_spec (upsert_count w + 1) PURGE_AFTER_UPSERT_EVERY); [lia|].
  unfold await, set_upsert_count, Date_now.
  unfold destroy_where. erewrite statement_down; [|simpl; exact Hf]. done.
Qed.

Lemma upsert_rejected_by_failed_sweep_witness :
  PURGE_AFTER_UPSERT_EVERY ≤ 9 + 1
  ∧ upsert session "a" ∅ (Some 60)
      {| table := sample_table; upsert_count := 9; clock := 1000;
         faults := [true; false] |}
    = (Rejected StorageFailure,
       {| table := sample_table; upsert_count := 0; clock := 1000;
          faults := [false] |}).
Proof.
  split; [unfold PURGE_AFTER_UPSERT_EVERY; lia|].
  apply (upsert_rejected_by_failed_sweep session "a" ∅ (Some 60)
           {| table := sample_table; upsert_count := 9; clock := 1000;
              faults := [true; false] |} [false]).
  - unfold PURGE_AFTER_UPSERT_EVERY; simpl; lia.
  - reflexivity.
Defined.


(** * Further properties of the adapter *)

(** ** A statement, whatever the engine does with it *)

Lemma statement_cases {A} (run : list record → error + (A * list record)) w :
  match statement run w with
  | (Fulfilled a, w') =>
    ∃ t, run (table w) = inr (a, t) ∧ w' = with_table t (sent w)
  | (Rejected e, w') => w' = sent w
  end.
Proof.
  unfold statement, sent. destruct (faults w) as [|[] fs]; try done;
    destruct (run (table w)) as [e|[a t]]; eauto.
Qed.

Lemma with_table_sent w : with_table (table w) (sent w) = sent w.
Proof. by destruct w. Qed.

Lemma fetch_world c w : (fetch c w).2 = sent w.
Proof.
  unfold fetch. pose proof (statement_cases
    (λ t, match bind_cond c with
          | inl e => inl e
          | inr f => inr (List.find f t, t)
          end) w) as H.
  destruct (statement _ w) as [[o|e] w']; simpl; [|done].
  destruct H as (t & E & ->). destruct (bind_cond c); [done|].
  simplify_eq. apply with_table_sent.
Qed.

Lemma read_world c w : (read c w).2 = sent w.
Proof.
  unfold read, await, Date_now, resolve. pose proof (fetch_world
    (AndWhere c (live_at (clock w))) w) as H.
  by destruct (fetch _ w) as [[o|e] w'].
Qed.

(** X1. The three reads change nothing, whatever the value they are given
    and whatever the engine does: the table, the counter and the clock are as
    before, and one statement has been sent. *)
Theorem reads_change_nothing this v w :
  let after := {| table := table w; upsert_count := upsert_count w;
                  clock := clock w; faults := tail (faults w) |} in
  (find this v w).2 = after
  ∧ (findByUid this v w).2 = after
  ∧ (findByUserCode this v w).2 = after.
Proof.
  intros after. split_and!.
  - exact (read_world (Where_id v) w).
  - exact (read_world (Where_data_contains (json_template "uid" v)) w).
  - exact (read_world (Where_data_contains (json_template "userCode" v)) w).
Qed.

(** ** The sweep and the reads *)

Lemma read_up c w :
  faults w = [] →
  read c w =
    match bind_cond c with
    | inl e => (Rejected e, w)
    | inr f =>
      (Fulfilled
         (get_data (List.find (λ r, f r && live (clock w) r) (table w))), w)
    end.
Proof.
  intros H. unfold read, await, Date_now, resolve, fetch.
  rewrite statement_up by done. cbn [bind_cond live_at].
  destruct (bind_cond c) as [e|f]; [done|].
  destruct w as [t n k fs]. unfold with_table. simpl. do 3 f_equal.
  apply find_ext_eq. intros r. by rewrite live_filter.
Qed.

Lemma find_filter {A} (g h : A → bool) (l : list A) :
  (∀ x, g x = true → h x = true) →
  List.find g (List.filter h l) = List.find g l.
Proof.
  intros H. induction l as [|x l IH]; simpl; [done|].
  destruct (h x) eqn:Eh; simpl.
  - by rewrite IH.
  - destruct (g x) eqn:Eg; [|done]. rewrite (H x Eg) in Eh. discriminate.
Qed.

Lemma read_after_purge c w :
  faults w = [] → (read c (after_purge w)).1 = (read c w).1.
Proof.
  intros H. rewrite !read_up by done. destruct (bind_cond c) as [e|f]; [done|].
  simpl. do 2 f_equal. apply find_filter. intros x Hx.
  apply andb_prop in Hx as [_ Hl]. rewrite live_not_expired in Hl.
  unfold purged. apply negb_true_iff in Hl. rewrite Hl.
  by rewrite andb_false_r.
Qed.

(** X2. With the engine up, [purgeExpired] changes the result of no read:
    [find], [findByUid] and [findByUserCode], by any instance and with any
    value, resolve or reject after it as they would have before it, whether
    it swept or not. *)
Theorem sweep_is_invisible_to_reads this this' v w :
  faults w = [] →
  let w' := (purgeExpired this w).2 in
  (find this' v w').1 = (find this' v w).1
  ∧ (findByUid this' v w').1 = (findByUid this' v w).1
  ∧ (findByUserCode this' v w').1 = (findByUserCode this' v w).1.
Proof.
  intros H w'. subst w'. rewrite purgeExpired_up by done. simpl.
  split_and!.
  - exact (read_after_purge (Where_id v) w H).
  - exact (read_after_purge (Where_data_contains (json_template "uid" v)) w H).
  - exact (read_after_purge
             (Where_data_contains (json_template "userCode" v)) w H).
Qed.

Lemma sweep_is_invisible_to_reads_witness :
  faults sample_world_9 = []
  ∧ id <$> table (purgeExpired session sample_world_9).2 = ["a"; "b"]
  ∧ (find access_token "c" (purgeExpired session sample_world_9).2).1
    = (find access_token "c" sample_world_9).1.
Proof.
  split; [reflexivity|]. split; [vm_compute; reflexivity|].
  exact (proj1 (sweep_is_invisible_to_reads session access_token "c"
                  sample_world_9 eq_refl)).
Defined.

(** ** Each statement of the engine, whatever the engine does *)

Lemma fetch_cases c w :
  match fetch c w with
  | (Fulfilled o, w') =>
    (∃ f, bind_cond c = inr f ∧ o = List.find f (table w)) ∧ w' = sent w
  | (Rejected e, w') => w' = sent w
  end.
Proof.
  unfold fetch, statement, sent. destruct w as [t n k fs]. simpl.
  destruct fs as [|[] fs]; try done;
    destruct (bind_cond c) as [e|f]; simpl; eauto.
Qed.

Lemma destroy_where_cases c w :
  match destroy_where c w with
  | (Fulfilled _, w') =>
    ∃ f, bind_cond c = inr f
         ∧ w' = with_table (List.filter (λ r, negb (f r)) (table w)) (sent w)
  | (Rejected e, w') => w' = sent w
  end.
Proof.
  unfold destroy_where, statement, sent.
  destruct (faults w) as [|[] fs]; try done;
    destruct (bind_cond c) as [e|f]; simpl; eauto.
Qed.

Lemma update_where_id_cases v set w :
  match update_where_id v set w with
  | (Fulfilled _, w') =>
    w' = with_table
           ((λ r, if String.eqb (id r) v then set r else r) <$> table w)
           (sent w)
  | (Rejected e, w') => w' = sent w
  end.
Proof.
  unfold update_where_id, statement, sent.
  by destruct (faults w) as [|[] fs].
Qed.

Lemma insert_cases r w :
  match insert r w with
  | (Fulfilled _, w') =>
    (∀ x, x ∈ table w → id x ≠ id r)
    ∧ w' = with_table (table w ++ [r]) (sent w)
  | (Rejected e, w') => w' = sent w
  end.
Proof.
  assert (Hex : List.existsb (λ r', String.eqb (id r') (id r)) (table w) = false
                → ∀ x, x ∈ table w → id x ≠ id r).
  { intros Hex x Hx E. apply list_elem_of_In in Hx.
    assert (List.existsb (λ r', String.eqb (id r') (id r)) (table w) = true).
    { apply List.existsb_exists. exists x. split; [done|].
      by apply String.eqb_eq. }
    congruence. }
  unfold insert, statement, sent.
  destruct (faults w) as [|[] fs]; try done;
    destruct (List.existsb _ (table w)); simpl; auto.
Qed.

Lemma purgeExpired_cases this w :
  match purgeExpired this w with
  | (Fulfilled _, w') =>
    table w' = table (after_purge w)
  | (Rejected e, w') => sweep_due w = true ∧ table w' = table w
  end
  ∧ upsert_count (purgeExpired this w).2
    = (if sweep_due w then 0 else upsert_count w + 1)
  ∧ clock (purgeExpired this w).2 = clock w
  ∧ (faults w = [] → faults (purgeExpired this w).2 = []).
Proof.
  unfold purgeExpired, await, pre_increment_upsert_count, sweep_due.
  destruct (upsert_count w + 1 <? PURGE_AFTER_UPSERT_EVERY) eqn:E; simpl.
  - split_and!; try done. symmetry. apply filter_none_purged.
    unfold sweep_due. by rewrite E.
  - pose proof (destroy_where_cases
      (Where_expires_at Le (clock w))
      (with_upsert_count 0 (with_upsert_count (upsert_count w + 1) w))) as H.
    destruct (destroy_where _ _) as [[u|e] w']; simpl.
    + destruct H as (f & [= <-] & ->). split_and!; try done.
      * simpl. unfold purged, sweep_due. by rewrite E.
      * simpl. by intros ->.
    + subst w'. split_and!; try done. simpl. by intros ->.
Qed.

(** ** upsert, whatever the engine does *)

Lemma upsert_cases this v p e w :
  let '(res, w') := upsert this v p e w in
  match res with
  | Fulfilled _ =>
    table w' = written this v p e (clock w) (table (after_purge w))
  | Rejected _ =>
    table w' = table w
    ∨ (sweep_due w = true ∧ table w' = table (after_purge w))
  end
  ∧ upsert_count w' = (if sweep_due w then 0 else upsert_count w + 1)
  ∧ clock w' = clock w.
Proof.
  unfold upsert, await at 1.
  destruct (purgeExpired_cases this w) as (Ht & Hc & Hk & _).
  destruct (purgeExpired this w) as [[u|e0] w1]; cbv beta iota in Ht;
    simpl in Hc, Hk;
    [|destruct Ht as [_ Ht]; split_and!; [by left|done|done]].
  assert (Hrej : ∀ w2 : world, table w2 = table w1 →
            table w2 = table w ∨ (sweep_due w = true ∧ table w2 = table w1)).
  { intros w2 ->. destruct (sweep_due w) eqn:Hd; [tauto|].
    left. rewrite Ht. exact (filter_none_purged w Hd). }
  rewrite <- Ht.
  unfold await, Date_now.
  pose proof (fetch_cases (Where_id v) w1) as Hfetch.
  destruct (fetch (Where_id v) w1) as [[o|e1] w2].
  - destruct Hfetch as [(f & [= <-] & ->) ->].
    fold (lookup_id v (table w1)). unfold written. rewrite Hk.
    destruct (lookup_id v (table w1)) as [r|] eqn:E.
    + pose proof (update_where_id_cases v
        (λ _, set_attributes
                {| ud_name := this_name this; ud_data := p;
                   ud_expires_at :=
                     if truthy e then Some (clock w + to_number e * 1000)
                     else None |} r) (sent w1)) as Hup.
      destruct (update_where_id _ _ (sent w1)) as [[u'|e2] w3];
        subst w3; [|split; [by apply Hrej|done]].
      split; [|done]. unfold set_attributes, written_expiry, row. simpl.
      by destruct (truthy e).
    + pose proof (insert_cases
        (new_record
           {| ud_name := this_name this; ud_data := p;
              ud_expires_at :=
                if truthy e then Some (clock w + to_number e * 1000)
                else None |} v) (sent w1)) as Hin.
      destruct (insert _ (sent w1)) as [[u'|e2] w3].
      * destruct Hin as [_ ->]. split; [|done].
        unfold new_record, written_expiry, row. simpl. by destruct (truthy e).
      * subst w3. split; [by apply Hrej|done].
  - subst w2. split; [by apply Hrej|done].
Qed.


(** X4. Whatever the engine fails, [upsert(id, ...)] neither removes nor
    changes a live record of another id, and every record of another id that
    it leaves was there before. *)
Theorem upsert_spares_the_other_live_records this v p e w r :
  id r ≠ v →
  let w' := (upsert this v p e w).2 in
  (r ∈ table w → live (clock w) r = true → r ∈ table w')
  ∧ (r ∈ table w' → r ∈ table w).
Proof.
  intros Hne w'. subst w'. pose proof (upsert_cases this v p e w) as H.
  assert (Hkeep : r ∈ table (after_purge w)
                  ↔ r ∈ table w ∧ purged w r = false)
    by apply after_purge_table.
  assert (Hlive : live (clock w) r = true → purged w r = false).
  { intros Hl. unfold purged. rewrite live_not_expired in Hl.
    apply negb_true_iff in Hl. rewrite Hl. apply andb_false_r. }
  destruct (upsert this v p e w) as [[u|e0] w']; destruct H as (H & _);
    simpl.
  - rewrite H, written_other by done. rewrite Hkeep. split; [auto|tauto].
  - destruct H as [->|[_ ->]]; [tauto|]. rewrite Hkeep.
    split; [auto|tauto].
Qed.

Lemma upsert_spares_the_other_live_records_witness :
  let w := {| table := sample_table; upsert_count := 9; clock := 1000;
              faults := [false; false; true] |} in
  let r := row "Session" "a" {[ "uid" := JStr "u1" ]} (Some 2000) in
  id r ≠ "c" ∧ r ∈ table w ∧ live (clock w) r = true
  ∧ (upsert access_token "c" ∅ None w).1 = Rejected StorageFailure
  ∧ r ∈ table (upsert access_token "c" ∅ None w).2.
Proof.
  cbv zeta. split; [discriminate|].
  split; [apply list_elem_of_here|]. split; [reflexivity|].
  split; [vm_compute; reflexivity|].
  refine (proj1 (upsert_spares_the_other_live_records access_token "c" ∅ None
                   {| table := sample_table; upsert_count := 9; clock := 1000;
                      faults := [false; false; true] |}
                   (row "Session" "a" {[ "uid" := JStr "u1" ]} (Some 2000))
                   _) _ eq_refl).
  - discriminate.
  - apply list_elem_of_here.
Defined.

(** ** The counter *)

Lemma run_call_count c w :
  upsert_count (run_call c w)
  = (if upsert_count w + 1 <? PURGE_AFTER_UPSERT_EVERY
     then upsert_count w + 1 else 0).
Proof.
  unfold run_call.
  pose proof (upsert_cases (call_this c) (call_id c) (call_payload c)
                (call_expiresIn c) (tick (call_delay c) w)) as H.
  destruct (upsert _ _ _ _ _) as [res w']. destruct H as (_ & H & _).
  cbn [snd]. rewrite H. unfold sweep_due. simpl. by destruct (_ <? _).
Qed.

(** X5. The counter counts the calls of [upsert] modulo the threshold,
    whichever instances make them and whatever the engine fails: from a
    counter between 0 and 9, after [n] calls it is the counter plus [n]
    modulo 10. *)
Theorem counter_counts_modulo_threshold (calls : list upsert_call) (w : world) :
  0 ≤ upsert_count w < PURGE_AFTER_UPSERT_EVERY →
  upsert_count (run_calls calls w)
  = (upsert_count w + Z.of_nat (length calls)) mod PURGE_AFTER_UPSERT_EVERY.
Proof.
  unfold PURGE_AFTER_UPSERT_EVERY. revert w.
  induction calls as [|c cs IH]; intros w Hr.
  - simpl. rewrite Z.add_0_r, Z.mod_small; lia.
  - simpl run_calls. pose proof (run_call_count c w) as Hc.
    unfold PURGE_AFTER_UPSERT_EVERY in Hc. rewrite IH.
    + rewrite Hc. simpl length. rewrite Nat2Z.inj_succ.
      destruct (Z.ltb_spec (upsert_count w + 1) 10).
      * f_equal. lia.
      * replace (upsert_count w) with 9 by lia.
        replace (9 + Z.succ (Z.of_nat (length cs)))
          with (Z.of_nat (length cs) + 1 * 10) by lia.
        by rewrite Z.mod_add.
    + rewrite Hc. destruct (Z.ltb_spec (upsert_count w + 1) 10); lia.
Qed.

Lemma counter_counts_modulo_threshold_witness :
  let w := {| table := sample_table; upsert_count := 0; clock := 1000;
              faults := [false; true; false; false; true] |} in
  0 ≤ upsert_count w < PURGE_AFTER_UPSERT_EVERY
  ∧ upsert_count (run_calls (nine_calls ++ nine_calls ++ [tenth_call]) w) = 9.
Proof.
  cbv zeta. split; [unfold PURGE_AFTER_UPSERT_EVERY; simpl; lia|].
  refine (counter_counts_modulo_threshold
            (nine_calls ++ nine_calls ++ [tenth_call])
            {| table := sample_table; upsert_count := 0; clock := 1000;
               faults := [false; true; false; false; true] |} _).
  unfold PURGE_AFTER_UPSERT_EVERY; simpl; lia.
Defined.

(** X6. A sweep that fails is not tried again by the next calls: when the
    sweep is due and the engine fails its delete (and nothing after it),
    [upsert] is rejected with the counter back at zero, and whatever the
    next nine calls of [upsert] are, every record whose id they do not write
    is still in the table, expired or not. *)
Theorem failed_sweep_is_not_retried this v p e w (calls : list upsert_call) r :
  sweep_due w = true → faults w = [true] →
  (length calls ≤ 9)%nat →
  r ∈ table w → id r ∉ call_id <$> calls →
  let w' := (upsert this v p e w).2 in
  (upsert this v p e w).1 = Rejected StorageFailure
  ∧ upsert_count w' = 0
  ∧ r ∈ table w'
  ∧ r ∈ table (run_calls calls w').
Proof.
  intros Hd Hf Hlen Hr Hnot w'.
  assert (Hw' : upsert this v p e w
                = (Rejected StorageFailure,
                   {| table := table w; upsert_count := 0; clock := clock w;
                      faults := [] |})).
  { unfold upsert, purgeExpired, await at 1 2.
    unfold pre_increment_upsert_count. unfold sweep_due in Hd.
    apply negb_true_iff in Hd. rewrite Hd.
    unfold await, set_upsert_count, Date_now, destroy_where.
    erewrite statement_down; [|simpl; exact Hf]. done. }
  subst w'. rewrite Hw'. simpl. split_and!; try done.
  destruct (run_calls_below calls
              {| table := table w; upsert_count := 0; clock := clock w;
                 faults := [] |} eq_refl) as (_ & _ & H).
  - unfold PURGE_AFTER_UPSERT_EVERY. simpl. lia.
  - by apply H.
Qed.

Lemma failed_sweep_is_not_retried_witness :
  let w := {| table := sample_table; upsert_count := 9; clock := 1000;
              faults := [true] |} in
  let r := row "AccessToken" "c" {[ "grantId" := JStr "g1" ]} (Some 500) in
  sweep_due w = true ∧ expired (clock w) r = true
  ∧ r ∈ table (run_calls nine_calls (upsert session "a" ∅ None w).2).
Proof.
  cbv zeta. split; [reflexivity|]. split; [reflexivity|].
  refine (proj2 (proj2 (proj2 (failed_sweep_is_not_retried session "a" ∅ None
            {| table := sample_table; upsert_count := 9; clock := 1000;
               faults := [true] |} nine_calls
            (row "AccessToken" "c" {[ "grantId" := JStr "g1" ]} (Some 500))
            eq_refl eq_refl _ _ _)))).
  - simpl. lia.
  - do 2 apply list_elem_of_further. apply list_elem_of_here.
  - simpl. rewrite !not_elem_of_cons. split_and!; try discriminate.
    apply not_elem_of_nil.
Defined.

(** ** upsert and the calls around it *)










(** ** consume, destroy and revokeByGrantId, whatever the engine does *)



Lemma filter_sublist {A} (f : A → bool) (l : list A) :
  sublist (List.filter f l) l.
Proof.
  induction l as [|x l IH]; simpl; [constructor|].
  destruct (f x); by constructor.
Qed.

(** X11. Whatever the value and whatever the engine does, [destroy] and
    [revokeByGrantId] only delete: what they leave is the table before with
    some records taken out, the counter and the clock are as before, and a
    rejected call has deleted nothing; [destroy(id)] takes out no record of
    another id. *)
Theorem destroy_and_revoke_only_delete this v w :
  let wd := (destroy this v w).2 in
  let wr := (revokeByGrantId this v w).2 in
  (sublist (table wd) (table w)
   ∧ (∀ r, r ∈ table w → id r ≠ v → r ∈ table wd)
   ∧ upsert_count wd = upsert_count w ∧ clock wd = clock w
   ∧ (∀ e, (destroy this v w).1 = Rejected e → table wd = table w))
  ∧ (sublist (table wr) (table w)
     ∧ upsert_count wr = upsert_count w ∧ clock wr = clock w
     ∧ (∀ e, (revokeByGrantId this v w).1 = Rejected e → table wr = table w)).
Proof.
  intros wd wr. subst wd wr. unfold destroy, revokeByGrantId. split.
  - pose proof (destroy_where_cases (Where_id v) w) as H.
    destruct (destroy_where (Where_id v) w) as [[u|e] w']; cbn [fst snd].
    + destruct H as (f & [= <-] & ->). simpl. split_and!; try done.
      * apply filter_sublist.
      * intros r Hr Hne. apply list_elem_of_In, List.filter_In.
        split; [by apply list_elem_of_In|].
        by apply negb_true_iff, String.eqb_neq.
    + subst w'. by split_and!.
  - pose proof (destroy_where_cases
                  (Where_data_contains (json_template "grantId" v)) w) as H.
    destruct (destroy_where _ w) as [[u|e] w']; cbn [fst snd].
    + destruct H as (f & _ & ->). simpl. split_and!; try done.
      apply filter_sublist.
    + subst w'. by split_and!.
Qed.

(** ** After a revocation *)

Lemma find_filter_some {A} (g h : A → bool) (l : list A) x :
  List.find g l = Some x → h x = true →
  List.find g (List.filter h l) = Some x.
Proof.
  induction l as [|y l IH]; simpl; [done|]. intros Hfind Hx.
  destruct (g y) eqn:Eg.
  - injection Hfind as ->. rewrite Hx. simpl. by rewrite Eg.
  - destruct (h y); simpl; [rewrite Eg|]; auto.
Qed.

(** X12. With the engine up and a grant id without double quote, backslash
    or control character, [revokeByGrantId] is fulfilled and deletes the
    records whose payload has exactly that grant id, expired or not, and no
    other; from then on no read, by any instance, with any value and at any
    time, resolves to a payload that has that grant id; [find] of a record
    with another grant id, or with none, resolves as before; a second call
    changes nothing. *)
Theorem revoked_grant_is_never_read this this' g v d w :
  plain g = true → faults w = [] →
  let w' := (revokeByGrantId this g w).2 in
  revokeByGrantId this g w = (Fulfilled tt, w')
  ∧ (∀ r, r ∈ table w' ↔ r ∈ table w ∧ ¬ has_field "grantId" g r)
  ∧ (∀ p, (find this' v (tick d w')).1 = Fulfilled (Some p)
          ∨ (findByUid this' v (tick d w')).1 = Fulfilled (Some p)
          ∨ (findByUserCode this' v (tick d w')).1 = Fulfilled (Some p) →
          p !! "grantId" ≠ Some (JStr g))
  ∧ (∀ p, (find this' v w).1 = Fulfilled (Some p) →
          p !! "grantId" ≠ Some (JStr g) →
          (find this' v w').1 = Fulfilled (Some p))
  ∧ revokeByGrantId this g w' = (Fulfilled tt, w').
Proof.
  intros Hg Hf w'.
  destruct (revokeByGrantId_plain this g w Hg Hf) as (Hr & Hmem & _).
  fold w' in Hr, Hmem.
  set (keep := λ r : record,
         negb (Jsonb.contains (JObj {[ "grantId" := JStr g ]}) (JObj (data r)))).
  assert (Ew : w' = with_table (List.filter keep (table w)) w).
  { subst w'. unfold revokeByGrantId.
    erewrite destroy_where_up; [|done|by apply bind_template]. done. }
  assert (Hf' : faults w' = []) by (by rewrite Ew).
  assert (Hread : ∀ c p, (read c (tick d w')).1 = Fulfilled (Some p) →
                         p !! "grantId" ≠ Some (JStr g)).
  { intros c p H. unfold read in H.
    apply read_live in H as (r & f & Hin & _ & <- & _).
    apply (Hmem r) in Hin as [_ Hno]. exact Hno. }
  split_and!; [done|done| | |].
  - intros p [H|[H|H]]; eapply Hread; exact H.
  - intros p Hp Hno. unfold find in *. fold (read (Where_id v)) in *.
    rewrite read_up in * by done. simpl in Hp |- *.
    destruct (List.find _ (table w)) as [r|] eqn:E; [|done].
    injection Hp as <-. rewrite Ew. simpl.
    erewrite find_filter_some; [done|exact E|].
    apply negb_true_iff, not_true_iff_false. by rewrite contains_singleton.
  - unfold revokeByGrantId.
    erewrite destroy_where_up; [|done|by apply bind_template].
    fold keep. rewrite Ew. unfold with_table. simpl.
    by rewrite filter_filter_same.
Qed.

Lemma revoked_grant_is_never_read_witness :
  plain "g1" = true ∧ faults sample_world = []
  ∧ revokeByGrantId session "g1" sample_world
    = (Fulfilled tt, (revokeByGrantId session "g1" sample_world).2)
  ∧ id <$> table (revokeByGrantId session "g1" sample_world).2 = ["a"].
Proof.
  split; [reflexivity|]. split; [reflexivity|]. split.
  - exact (proj1 (revoked_grant_is_never_read session session "g1" "a" 0
                    sample_world eq_refl eq_refl)).
  - vm_compute. reflexivity.
Defined.

(** ** getAll *)

(** X13. With the engine up, [getAll] resolves to the records that have the
    name of the instance, all of them and no other, live or expired, each
    once, the most recently updated first, and changes nothing. *)
Theorem getAll_lists_the_namespace (updated_at : record → Z) this w :
  faults w = [] →
  ∃ rows, getAll updated_at this w = (Fulfilled rows, w)
    ∧ rows ≡ₚ List.filter (λ r, String.eqb (name r) (this_name this)) (table w)
    ∧ (∀ r, r ∈ rows ↔ r ∈ table w ∧ name r = this_name this)
    ∧ StronglySorted (λ a b, updated_at b ≤ updated_at a) rows.
Proof.
  intros Hf. eexists. unfold getAll. rewrite statement_up by done.
  split; [by destruct w|].
  assert (Hperm := merge_sort_Permutation (newer_first updated_at)
    (List.filter (λ r, String.eqb (name r) (this_name this)) (table w))).
  split; [exact Hperm|]. split.
  - intros r. rewrite Hperm, list_elem_of_In, List.filter_In.
    by rewrite <- list_elem_of_In, String.eqb_eq.
  - assert (Htrans : Transitive (newer_first updated_at)).
    { intros a b c. unfold newer_first. lia. }
    assert (Htotal : Total (newer_first updated_at)).
    { intros a b. unfold newer_first. lia. }
    exact (StronglySorted_merge_sort (newer_first updated_at) _).
Qed.

Lemma getAll_lists_the_namespace_witness :
  faults sample_world = []
  ∧ ∃ rows, getAll sample_updated_at session sample_world
            = (Fulfilled rows, sample_world)
      ∧ rows ≡ₚ List.filter (λ r, String.eqb (name r) (this_name session))
                  (table sample_world)
      ∧ (∀ r, r ∈ rows ↔ r ∈ table sample_world ∧ name r = this_name session)
      ∧ StronglySorted
          (λ a b, sample_updated_at b ≤ sample_updated_at a) rows.
Proof.
  split; [reflexivity|].
  exact (getAll_lists_the_namespace sample_updated_at session sample_world
           eq_refl).
Defined.

Example getAll_sample :
  id <$> match (getAll sample_updated_at session sample_world).1 with
         | Fulfilled rows => rows
         | Rejected _ => []
         end = ["b"; "a"]
  ∧ id <$> match (getAll sample_updated_at access_token sample_world).1 with
           | Fulfilled rows => rows
           | Rejected _ => []
           end = ["c"].
Proof. split; vm_compute; reflexivity. Qed.

(** ** The invariant, at work *)


(** ** upsert and the lookup by uid *)



(** ** purgeExpired, whatever the engine does *)

(** X16. Whatever the engine fails, [purgeExpired] only deletes, and only
    records that are expired at the time of the call: a live record, and so
    every record without expiry, stays; when the sweep is not due or the
    call is rejected, the table is as before. *)
Theorem purgeExpired_spares_the_live this w :
  let w' := (purgeExpired this w).2 in
  sublist (table w') (table w)
  ∧ (∀ r, r ∈ table w → live (clock w) r = true → r ∈ table w')
  ∧ (∀ r, r ∈ table w → expires_at r = None → r ∈ table w')
  ∧ (sweep_due w = false → table w' = table w)
  ∧ (∀ e, (purgeExpired this w).1 = Rejected e → table w' = table w).
Proof.
  intros w'. subst w'. destruct (purgeExpired_cases this w) as (H & _).
  assert (Hlive : ∀ r, r ∈ table w → live (clock w) r = true →
                       r ∈ table (after_purge w)).
  { intros r Hr Hl. apply after_purge_table. split; [done|].
    unfold purged. rewrite live_not_expired in Hl.
    apply negb_true_iff in Hl. rewrite Hl. apply andb_false_r. }
  destruct (purgeExpired this w) as [[u|e0] w']; cbn [fst snd] in *.
  - rewrite H. split_and!; try done.
    + apply filter_sublist.
    + intros r Hr He. apply Hlive; [done|]. unfold live. by rewrite He.
    + intros Hd. exact (filter_none_purged w Hd).
  - destruct H as [_ ->]. split_and!; try done.
Qed.
